(** * Ai-VisionChat: the exchange adapter, the conversation store and the
      capture component

    A shallow embedding of
      - [src/services/geminiService.ts] ([sendMessageToGemini]),
      - [src/components/ChatInterface.tsx] ([handleSendMessage],
        [handlePhotoCapture] and the controls that reach them),
      - the [CameraCapture] component ([startCamera], [stopCamera],
        [capturePhoto]),
    together with the properties of the request assembly, of the
    normalisation of the provider's reply and of the two UI state machines. *)

From Stdlib Require Import Ascii String.
From Stdlib Require Import List Bool Arith NArith Lia.
Import ListNotations.

Set Implicit Arguments.

(* ===================================================================== *)
(** ** JavaScript values used by the program *)
(* ===================================================================== *)

Module Js.

(** A JavaScript string is a sequence of UTF-16 code units. *)
Definition JsString := list N.

Definition JsString_eq_dec : forall a b : JsString, {a = b} + {a <> b} :=
  list_eq_dec N.eq_dec.

(** SameValueZero on strings, the key comparison of [Map]. *)
Definition sameValue (a b : JsString) : bool :=
  if JsString_eq_dec a b then true else false.

(** A literal of the source, as code units. *)
Definition lit (s : string) : JsString :=
  List.map N_of_ascii (list_ascii_of_string s).

(** ToBoolean on a string: the empty string is the only falsy one. *)
Definition truthy (s : JsString) : bool :=
  match s with [] => false | _ :: _ => true end.

(** ToBoolean on an optional property ([undefined] / [null] are falsy). *)
Definition truthyProp (o : option JsString) : bool :=
  match o with Some s => truthy s | None => false end.

Definition isSome {A} (o : option A) : bool :=
  match o with Some _ => true | None => false end.

(** ECMAScript WhiteSpace and LineTerminator code points, the characters
    [String.prototype.trim] strips. *)
Definition isWhiteSpace (c : N) : bool :=
  ((9 <=? c) && (c <=? 13) || (c =? 32) || (c =? 160) || (c =? 5760)
   || (8192 <=? c) && (c <=? 8202) || (c =? 8232) || (c =? 8233)
   || (c =? 8239) || (c =? 8287) || (c =? 12288) || (c =? 65279))%N.

Fixpoint trimStart (s : JsString) : JsString :=
  match s with
  | [] => []
  | c :: s' => if isWhiteSpace c then trimStart s' else s
  end.

Definition trimEnd (s : JsString) : JsString := rev (trimStart (rev s)).

(** [String.prototype.trim]. *)
Definition trim (s : JsString) : JsString := trimEnd (trimStart s).

(** *** [Map]: insertion-ordered; [set] on a present key replaces the value
    and keeps the key's position. *)
Section MapModel.
Variable V : Type.

Definition JsMap := list (JsString * V).

Fixpoint map_set (m : JsMap) (k : JsString) (v : V) : JsMap :=
  match m with
  | [] => [(k, v)]
  | (k', v') :: m' =>
      if sameValue k' k then (k', v) :: m' else (k', v') :: map_set m' k v
  end.

(** One step of the constructor's iteration over its entries. *)
Definition setEntry (m : JsMap) (e : JsString * V) : JsMap :=
  map_set m (fst e) (snd e).

(** [new Map(entries)]: every entry is [set] in iteration order. *)
Definition map_of_entries (entries : list (JsString * V)) : JsMap :=
  fold_left setEntry entries [].

(** [m.get(k)]. *)
Fixpoint map_get (m : JsMap) (k : JsString) : option V :=
  match m with
  | [] => None
  | (k', v') :: m' => if sameValue k' k then Some v' else map_get m' k
  end.

Definition map_keys (m : JsMap) : list JsString := List.map fst m.

(** [Array.from(m.values())]. *)
Definition map_values (m : JsMap) : list V := List.map snd m.
End MapModel.

(** What a [catch] clause can receive: an [Error] instance with its
    [message], or any other thrown value. *)
Inductive Thrown :=
| ErrorInstance (message : JsString)
| OtherValue.

(** Completion of a block that may throw. *)
Inductive Completion (A : Type) :=
| Normal (a : A)
| Throw (e : Thrown).
Arguments Normal {A} a.
Arguments Throw {A} e.

Definition bind {A B} (c : Completion A) (k : A -> Completion B)
  : Completion B :=
  match c with
  | Normal a => k a
  | Throw e => Throw e
  end.

(** [try { body } catch (e) { handler }]. *)
Definition tryCatch {A} (body : Completion A)
           (handler : Thrown -> Completion A) : Completion A :=
  match body with
  | Normal a => Normal a
  | Throw e => handler e
  end.

End Js.

Import Js.

Notation "x <- c ;; k" := (bind c (fun x => k))
  (at level 61, c at next level, right associativity).

(* ===================================================================== *)
(** ** types.ts *)
(* ===================================================================== *)

Inductive Role := user | model.

Record GroundingSource := { uri : JsString; title : JsString }.

Record InlineData := { mimeType : JsString; data : JsString }.

(** [ChatPart]: an object with two optional properties. *)
Record ChatPart := { text : option JsString; inlineData : option InlineData }.

Record ChatMessage := {
  role : Role;
  parts : list ChatPart;
  groundingSources : option (list GroundingSource)
}.

(** The [image] argument of the exchange, [{ base64, mimeType }]. *)
Record Image := { base64 : JsString; imageMimeType : JsString }.

(* ===================================================================== *)
(** ** services/geminiService.ts *)
(* ===================================================================== *)

Module GeminiService.

(** A turn of the provider request, [{ role, parts }]. *)
Record Content := { c_role : Role; c_parts : list ChatPart }.

(** The provider's reply, as far as the program reads it:
    [response.text] and
    [response.candidates?.[0]?.groundingMetadata?.groundingChunks],
    whose elements carry an optional [web] with optional [uri] and
    [title]. *)
Record Web := { web_uri : option JsString; web_title : option JsString }.
Record GroundingChunk := { web : option Web }.
Record GenerateContentResponse := {
  responseText : option JsString;
  groundingChunks : option (list GroundingChunk)
}.

(** Settlement of the awaited provider call. *)
Inductive Outcome :=
| Fulfilled (response : GenerateContentResponse)
| Rejected (reason : Thrown).

Definition await (o : Outcome) : Completion GenerateContentResponse :=
  match o with
  | Fulfilled r => Normal r
  | Rejected e => Throw e
  end.

(** What the exchange returns: [{ text, sources }] or [{ error }]. *)
Inductive ExchangeResult :=
| Success (text : option JsString) (sources : list GroundingSource)
| Failure (error : JsString).

Definition fileToGenerativePart (base64 mimeType : JsString) : ChatPart :=
  {| text := None;
     inlineData := Some {| data := base64; mimeType := mimeType |} |}.

(** Lines 27-30. *)
Definition userParts (message : JsString) (image : option Image)
  : list ChatPart :=
  let userParts := [ {| text := Some message; inlineData := None |} ] in
  match image with
  | Some img =>
      userParts ++ [fileToGenerativePart (base64 img) (imageMimeType img)]
  | None => userParts
  end.

(** Lines 35-39, the callback of [msg.parts.map]. *)
Definition convertPart (part : ChatPart) : ChatPart :=
  if truthyProp (text part) then {| text := text part; inlineData := None |}
  else if isSome (inlineData part)
       then {| text := None; inlineData := inlineData part |}
       else {| text := None; inlineData := None |}.

(** Lines 33-40, the callback of [history.map]. *)
Definition convertMessage (msg : ChatMessage) : Content :=
  {| c_role := role msg; c_parts := List.map convertPart (parts msg) |}.

(** Lines 32-42. *)
Definition contents (history : list ChatMessage) (message : JsString)
           (image : option Image) : list Content :=
  List.map convertMessage history
    ++ [ {| c_role := user; c_parts := userParts message image |} ].

(** Line 57, the predicate of [filter]. *)
Definition chunkHasSource (chunk : GroundingChunk) : bool :=
  match web chunk with
  | Some w => truthyProp (web_uri w) && truthyProp (web_title w)
  | None => false
  end.

(** Lines 58-61, the callback of [map]; it runs on filtered chunks only,
    where both properties are strings. *)
Definition chunkToSource (chunk : GroundingChunk) : GroundingSource :=
  match web chunk with
  | Some {| web_uri := Some u; web_title := Some t |} =>
      {| uri := u; title := t |}
  | _ => {| uri := []; title := [] |}
  end.

(** Lines 55-62. *)
Definition groundingSourcesOf (chunks : option (list GroundingChunk))
  : list GroundingSource :=
  match chunks with
  | Some cs => List.map chunkToSource (List.filter chunkHasSource cs)
  | None => []
  end.

(** Line 65. *)
Definition uniqueSources (groundingSources : list GroundingSource)
  : list GroundingSource :=
  map_values
    (map_of_entries (List.map (fun item => (uri item, item)) groundingSources)).

Definition unknownError : JsString := lit "An unknown error occurred.".

Section Exchange.
(** The provider, seen from the program: the settlement of
    [ai.models.generateContent] on a given turn sequence. *)
Variable generateContent : list Content -> Outcome.

(** Lines 27-71, the [try] block. *)
Definition tryBlock (history : list ChatMessage) (message : JsString)
           (image : option Image) : Completion ExchangeResult :=
  let contents := contents history message image in
  response <- await (generateContent contents) ;;
  let responseText := responseText response in
  let groundingSources := groundingSourcesOf (groundingChunks response) in
  Normal (Success responseText (uniqueSources groundingSources)).

(** Lines 73-79, the [catch] clause: [error instanceof Error] selects
    the first branch. *)
Definition catchClause (error : Thrown) : Completion ExchangeResult :=
  match error with
  | ErrorInstance message => Normal (Failure message)
  | OtherValue => Normal (Failure unknownError)
  end.

(** Lines 21-80. The completion is that of the [async] function's body:
    [Normal] resolves the returned promise, [Throw] rejects it. *)
Definition sendMessageToGemini (history : list ChatMessage)
           (message : JsString) (image : option Image)
  : Completion ExchangeResult :=
  tryCatch (tryBlock history message image) catchClause.
End Exchange.

(** The properties [result.error], [result.text], [result.sources] as the
    caller reads them ([undefined] when the object has no such property). *)
Definition result_error (r : ExchangeResult) : option JsString :=
  match r with Failure e => Some e | Success _ _ => None end.
Definition result_text (r : ExchangeResult) : option JsString :=
  match r with Success t _ => t | Failure _ => None end.
Definition result_sources (r : ExchangeResult)
  : option (list GroundingSource) :=
  match r with Success _ s => Some s | Failure _ => None end.

End GeminiService.

(* ===================================================================== *)
(** ** components/ChatInterface.tsx: the conversation store *)
(* ===================================================================== *)

Module ChatInterface.
Import GeminiService.

(** The six [useState] cells of the component. *)
Record Store := {
  messages : list ChatMessage;
  input : JsString;
  isLoading : bool;
  error : option JsString;
  isCameraOpen : bool;
  imageToSend : option Image
}.

Definition initialStore : Store :=
  {| messages := []; input := []; isLoading := false; error := None;
     isCameraOpen := false; imageToSend := None |}.

Definition setMessages (f : list ChatMessage -> list ChatMessage)
           (st : Store) : Store :=
  {| messages := f (messages st); input := input st;
     isLoading := isLoading st; error := error st;
     isCameraOpen := isCameraOpen st; imageToSend := imageToSend st |}.

Definition setInput (v : JsString) (st : Store) : Store :=
  {| messages := messages st; input := v;
     isLoading := isLoading st; error := error st;
     isCameraOpen := isCameraOpen st; imageToSend := imageToSend st |}.

Definition setIsLoading (v : bool) (st : Store) : Store :=
  {| messages := messages st; input := input st;
     isLoading := v; error := error st;
     isCameraOpen := isCameraOpen st; imageToSend := imageToSend st |}.

Definition setError (v : option JsString) (st : Store) : Store :=
  {| messages := messages st; input := input st;
     isLoading := isLoading st; error := v;
     isCameraOpen := isCameraOpen st; imageToSend := imageToSend st |}.

Definition setIsCameraOpen (v : bool) (st : Store) : Store :=
  {| messages := messages st; input := input st;
     isLoading := isLoading st; error := error st;
     isCameraOpen := v; imageToSend := imageToSend st |}.

Definition setImageToSend (v : option Image) (st : Store) : Store :=
  {| messages := messages st; input := input st;
     isLoading := isLoading st; error := error st;
     isCameraOpen := isCameraOpen st; imageToSend := v |}.

(** The arguments of one call of [sendMessageToGemini] (line 96). *)
Record ExchangeCall := {
  call_history : list ChatMessage;
  call_message : JsString;
  call_image : option Image
}.

(** Lines 74-89: the user message, its parts pushed one by one. *)
Definition userMessage (trimmedInput : JsString) (image : option Image)
  : ChatMessage :=
  let parts0 : list ChatPart := [] in
  let parts1 :=
    if truthy trimmedInput
    then parts0 ++ [ {| text := Some trimmedInput; inlineData := None |} ]
    else parts0 in
  let parts2 :=
    match image with
    | Some img =>
        parts1 ++ [ {| text := None;
                       inlineData := Some {| data := base64 img;
                                             mimeType := imageMimeType img |} |} ]
    | None => parts1
    end in
  {| role := user; parts := parts2; groundingSources := None |}.

(** Lines 67-96: [handleSendMessage] up to its [await]; the second
    component is the exchange call it issues, if any. *)
Definition handleSendMessage (st : Store) : Store * option ExchangeCall :=
  let trimmedInput := trim (input st) in
  if negb (truthy trimmedInput) && negb (isSome (imageToSend st))
  then (st, None)
  else
    let st1 := setError None st in
    let st2 := setIsLoading true st1 in
    let userMessage := userMessage trimmedInput (imageToSend st) in
    let currentHistory := messages st in
    let st3 := setMessages (fun prev => prev ++ [userMessage]) st2 in
    let st4 := setInput [] st3 in
    let st5 := setImageToSend None st4 in
    (st5, Some {| call_history := currentHistory;
                  call_message := trimmedInput;
                  call_image := imageToSend st |}).

Definition sorryPrefix : JsString := lit "Sorry, something went wrong: ".

(** Lines 98-114: the rest of [handleSendMessage], once the exchange
    has returned [result]. *)
Definition handleSendMessage_resume (result : ExchangeResult) (st : Store)
  : Store :=
  let st1 :=
    match result_error result with
    | Some (c :: e) =>
        let err := c :: e in
        let st' := setError (Some err) st in
        let errorMessage :=
          {| role := model;
             parts := [ {| text := Some (sorryPrefix ++ err);
                           inlineData := None |} ];
             groundingSources := None |} in
        setMessages (fun prev => prev ++ [errorMessage]) st'
    | _ =>
        let modelMessage :=
          {| role := model;
             parts := [ {| text := result_text result; inlineData := None |} ];
             groundingSources := result_sources result |} in
        setMessages (fun prev => prev ++ [modelMessage]) st
    end in
  setIsLoading false st1.

(** Lines 117-120. *)
Definition handlePhotoCapture (imageData : Image) (st : Store) : Store :=
  setIsCameraOpen false (setImageToSend (Some imageData) st).

(** Line 217: [disabled] of the textarea. *)
Definition textareaDisabled (st : Store) : bool := isLoading st.

(** Line 221: [disabled] of the send button. *)
Definition sendDisabled (st : Store) : bool :=
  (negb (truthy (trim (input st))) && negb (isSome (imageToSend st)))
  || isLoading st.

End ChatInterface.

(* ===================================================================== *)
(** ** components/CameraCapture.tsx: the capture component *)
(* ===================================================================== *)

Module CameraCapture.
Import ChatInterface.

(** A [MediaStream], by identity. *)
Definition MediaStream := nat.

(** The capture device: the streams handed out whose tracks have not been
    stopped, and the identity of the next stream it grants. *)
Record Device := { liveStreams : list MediaStream; nextStream : MediaStream }.

Definition initialDevice : Device := {| liveStreams := []; nextStream := 0 |}.

(** The two [useState] cells of the component. *)
Record State := { stream : option MediaStream; cameraError : option JsString }.

Definition initialState : State := {| stream := None; cameraError := None |}.

Definition cameraDenied : JsString :=
  lit "Could not access the camera. Please ensure permissions are granted.".

(** [stream.getTracks().forEach(track => track.stop())]. *)
Definition stopTracks (s : MediaStream) (d : Device) : Device :=
  {| liveStreams := List.filter (fun s' => negb (Nat.eqb s' s)) (liveStreams d);
     nextStream := nextStream d |}.

(** Lines 15-30; [granted] is the settlement of [getUserMedia]. The click
    and the settlement are taken as one step: no other event comes between
    the request and the grant. *)
Definition startCamera (granted : bool) (c : State) (d : Device)
  : State * Device :=
  if granted
  then
    let mediaStream := nextStream d in
    ({| stream := Some mediaStream; cameraError := None |},
     {| liveStreams := mediaStream :: liveStreams d;
        nextStream := S (nextStream d) |})
  else ({| stream := None; cameraError := Some cameraDenied |}, d).

(** Lines 32-37. *)
Definition stopCamera (c : State) (d : Device) : State * Device :=
  match stream c with
  | Some s => ({| stream := None; cameraError := cameraError c |},
               stopTracks s d)
  | None => (c, d)
  end.

Definition jpeg : JsString := lit "image/jpeg".

(** Lines 39-57; [canvas] is [None] when [getContext('2d')] yields no
    context, and otherwise the base64 payload of [toDataURL]. The props
    [onCapture] and [onClose] are those of line 124 of the parent. *)
Definition capturePhoto (canvas : option JsString)
           (c : State) (d : Device) (st : Store) : State * Device * Store :=
  match canvas with
  | Some b64 =>
      let st1 :=
        handlePhotoCapture {| base64 := b64; imageMimeType := jpeg |} st in
      let '(c1, d1) := stopCamera c d in
      let st2 := setIsCameraOpen false st1 in
      (c1, d1, st2)
  | None => (c, d, st)
  end.

(** Line 62: the back button's [onClick] is the prop [onClose] itself. *)
Definition backButton (c : State) (d : Device) (st : Store)
  : State * Device * Store :=
  (c, d, setIsCameraOpen false st).

End CameraCapture.

(* ===================================================================== *)
(** ** The running application *)
(* ===================================================================== *)

Module App.
Import GeminiService ChatInterface CameraCapture.

(** The store, the mounted capture component (line 124: present exactly
    while [isCameraOpen]), the capture device and the exchanges awaiting
    the provider. *)
Record System := {
  store : Store;
  capture : option State;
  device : Device;
  inFlight : list ExchangeCall
}.

Definition initial : System :=
  {| store := initialStore; capture := None; device := initialDevice;
     inFlight := [] |}.

(** Re-render after a handler: [CameraCapture] is mounted with fresh state
    when [isCameraOpen] turns true and unmounted when it turns false. *)
Definition render (st : Store) (c : option State) : option State :=
  if isCameraOpen st
  then match c with Some c' => Some c' | None => Some initialState end
  else None.

Inductive Event :=
| TypeText (value : JsString)        (* textarea [onChange] *)
| PressEnter                         (* textarea [onKeyDown], Enter *)
| ClickSend                          (* send button *)
| ClickRemoveImage                   (* preview close button *)
| ClickOpenCamera                    (* camera button *)
| ClickStartCamera (granted : bool)  (* start button, with the grant *)
| ClickCapture (canvas : option JsString)
| ClickBack
| Settle (outcome : Outcome).        (* the awaited provider call settles *)

Definition submit (sys : System) : System :=
  let '(st, call) := handleSendMessage (store sys) in
  {| store := st; capture := render st (capture sys); device := device sys;
     inFlight := match call with
                 | Some c => inFlight sys ++ [c]
                 | None => inFlight sys
                 end |}.

Definition withStore (st : Store) (sys : System) : System :=
  {| store := st; capture := render st (capture sys); device := device sys;
     inFlight := inFlight sys |}.

(** One event of the UI. A disabled or unrendered control delivers no
    event to its handler: the start button is rendered while the component
    holds no stream (line 70), the capture button while it holds one
    (line 90), the preview's close button while an image is pending
    (line 188). *)
Definition step (sys : System) (e : Event) : System :=
  match e with
  | TypeText v =>
      if textareaDisabled (store sys) then sys
      else withStore (setInput v (store sys)) sys
  | PressEnter =>
      if textareaDisabled (store sys) then sys else submit sys
  | ClickSend =>
      if sendDisabled (store sys) then sys else submit sys
  | ClickRemoveImage =>
      if isSome (imageToSend (store sys))
      then withStore (setImageToSend None (store sys)) sys
      else sys
  | ClickOpenCamera => withStore (setIsCameraOpen true (store sys)) sys
  | ClickStartCamera granted =>
      match capture sys with
      | Some c =>
          if isSome (stream c) then sys
          else let '(c', d') := startCamera granted c (device sys) in
               {| store := store sys; capture := Some c'; device := d';
                  inFlight := inFlight sys |}
      | None => sys
      end
  | ClickCapture canvas =>
      match capture sys with
      | Some c =>
          if isSome (stream c)
          then let '(c', d', st') :=
                 capturePhoto canvas c (device sys) (store sys) in
               {| store := st'; capture := render st' (Some c'); device := d';
                  inFlight := inFlight sys |}
          else sys
      | None => sys
      end
  | ClickBack =>
      match capture sys with
      | Some c =>
          let '(c', d', st') := backButton c (device sys) (store sys) in
          {| store := st'; capture := render st' (Some c'); device := d';
             inFlight := inFlight sys |}
      | None => sys
      end
  | Settle outcome =>
      match inFlight sys with
      | call :: rest =>
          match sendMessageToGemini (fun _ => outcome) (call_history call)
                                    (call_message call) (call_image call)
          with
          | Normal result =>
              let st' := handleSendMessage_resume result (store sys) in
              {| store := st'; capture := render st' (capture sys);
                 device := device sys; inFlight := rest |}
          | Throw _ =>
              (* the [await] of line 96 rethrows and the handler ends *)
              {| store := store sys; capture := capture sys;
                 device := device sys; inFlight := rest |}
          end
      | [] => sys
      end
  end.

Definition run (sys : System) (trace : list Event) : System :=
  fold_left step trace sys.

Definition reachable (sys : System) : Prop :=
  exists trace, run initial trace = sys.

(** The two states of the conversation store. *)
Definition idle (sys : System) : Prop := isLoading (store sys) = false.
Definition awaitingResponse (sys : System) : Prop :=
  isLoading (store sys) = true.

(** An event by which the user attempts to submit. *)
Definition isSubmission (e : Event) : bool :=
  match e with PressEnter | ClickSend => true | _ => false end.

End App.

(* ===================================================================== *)
(** ** Reference notions the properties are stated with *)
(* ===================================================================== *)

Module Reference.
Import GeminiService.

(** Is [k] among the keys [ks]? *)
Definition hasKey (ks : list JsString) (k : JsString) : bool :=
  existsb (fun k' => sameValue k' k) ks.

(** The last value the entries bind to a key. *)
Fixpoint lastBinding {V} (entries : list (JsString * V)) (k : JsString)
  : option V :=
  match entries with
  | [] => None
  | (k', v') :: rest =>
      match lastBinding rest k with
      | Some v => Some v
      | None => if sameValue k' k then Some v' else None
      end
  end.

(** The keys of a list in order of first occurrence. *)
Fixpoint firstSeen (l : list JsString) : list JsString :=
  match l with
  | [] => []
  | k :: l' => k :: List.filter (fun k' => negb (sameValue k' k)) (firstSeen l')
  end.

(** The first entry of [gs] whose uri is [u]. *)
Fixpoint firstWithUri (u : JsString) (gs : list GroundingSource)
  : option GroundingSource :=
  match gs with
  | [] => None
  | s :: gs' => if sameValue (uri s) u then Some s else firstWithUri u gs'
  end.

(** The last entry of [gs] whose uri is [u]. *)
Fixpoint lastWithUri (u : JsString) (gs : list GroundingSource)
  : option GroundingSource :=
  match gs with
  | [] => None
  | s :: gs' =>
      match lastWithUri u gs' with
      | Some s' => Some s'
      | None => if sameValue (uri s) u then Some s else None
      end
  end.

(** Deduplication as the specification words it: for each distinct uri
    the first-seen entry, in first-seen order. *)
Fixpoint dedupKeepingFirst (gs : list GroundingSource)
  : list GroundingSource :=
  match gs with
  | [] => []
  | s :: gs' =>
      s :: List.filter (fun s' => negb (sameValue (uri s') (uri s)))
                       (dedupKeepingFirst gs')
  end.

(** A citation that lacks a uri or lacks a title. *)
Definition lacksUriOrTitle (chunk : GroundingChunk) : Prop :=
  match web chunk with
  | Some w => web_uri w = None \/ web_title w = None
  | None => True
  end.

(** The three shapes a converted part can take. *)
Definition textPart (t : JsString) : ChatPart :=
  {| text := Some t; inlineData := None |}.
Definition inlineDataPart (d : InlineData) : ChatPart :=
  {| text := None; inlineData := Some d |}.
Definition emptyObject : ChatPart :=
  {| text := None; inlineData := None |}.

Definition imagePart (img : Image) : ChatPart :=
  inlineDataPart {| data := base64 img; mimeType := imageMimeType img |}.

End Reference.

(* ===================================================================== *)
(** ** components/ChatInterface.tsx: [FormattedText] *)
(* ===================================================================== *)

Module FormattedText.

(** LineTerminator code points: those [.] does not match. *)
Definition isLineTerminator (c : N) : bool :=
  ((c =? 10) || (c =? 13) || (c =? 8232) || (c =? 8233))%N.

Fixpoint startsWith (prefix s : JsString) : bool :=
  match prefix, s with
  | [], _ => true
  | a :: prefix', b :: s' => (a =? b)%N && startsWith prefix' s'
  | _ :: _, [] => false
  end.

(** [[^\s]+], greedy: the length of the longest run of code units that are
    not white space. *)
Fixpoint nonSpaceRun (s : JsString) : nat :=
  match s with
  | [] => 0
  | c :: s' => if isWhiteSpace c then 0 else S (nonSpaceRun s')
  end.

Definition https : JsString := lit "https://".
Definition http : JsString := lit "http://".
Definition stars : JsString := lit "**".

(** One alternative of [https?:\/\/[^\s]+] at the start of [s]: the length
    matched. *)
Definition matchScheme (scheme s : JsString) : option nat :=
  if startsWith scheme s
  then match nonSpaceRun (skipn (length scheme) s) with
       | 0 => None
       | S n => Some (length scheme + S n)
       end
  else None.

(** [/(https?:\/\/[^\s]+)/] anchored at the start of [s]: the length
    matched. *)
Definition matchUrlAt (s : JsString) : option nat :=
  match matchScheme https s with
  | Some n => Some n
  | None => matchScheme http s
  end.

(** The same with the capture group, which is the whole match. *)
Definition urlMatcher (s : JsString) : option (nat * JsString) :=
  match matchUrlAt s with
  | Some n => Some (n, firstn n s)
  | None => None
  end.

(** [(.*?)] followed by the closing marker, lazily: the captured text. *)
Fixpoint lazyBody (s : JsString) : option JsString :=
  match s with
  | [] => None
  | c :: r =>
      if startsWith stars s then Some []
      else if isLineTerminator c then None
           else option_map (cons c) (lazyBody r)
  end.

(** [/\*\*(.*?)\*\*/] anchored at the start of [s]: the length matched and
    the captured text. *)
Definition boldMatcher (s : JsString) : option (nat * JsString) :=
  if startsWith stars s
  then match lazyBody (skipn 2 s) with
       | Some b => Some (4 + length b, b)
       | None => None
       end
  else None.

(** The loop of [String.prototype.split] for a pattern with one capture
    group whose matches are not empty: [gap] is the text since the last
    match, [s] what is left to scan. Every turn consumes a code unit, so
    the length of the text bounds the turns. *)
Fixpoint splitLoop (matchAt : JsString -> option (nat * JsString))
         (fuel : nat) (gap s : JsString) : list JsString :=
  match fuel with
  | 0 => [gap ++ s]
  | S fuel' =>
      match s with
      | [] => [gap]
      | c :: s' =>
          match matchAt s with
          | Some (n, captured) =>
              gap :: captured :: splitLoop matchAt fuel' [] (skipn n s)
          | None => splitLoop matchAt fuel' (gap ++ [c]) s'
          end
      end
  end.

Definition split (matchAt : JsString -> option (nat * JsString))
           (s : JsString) : list JsString :=
  splitLoop matchAt (length s) [] s.

(** The leftmost match of the url pattern in [s]: where it starts and its
    length. *)
Fixpoint searchUrl (s : JsString) : option (nat * nat) :=
  match matchUrlAt s with
  | Some n => Some (0, n)
  | None =>
      match s with
      | [] => None
      | _ :: s' =>
          match searchUrl s' with
          | Some (i, n) => Some (S i, n)
          | None => None
          end
      end
  end.

(** [urlRegex.test(part)] (line 17). The pattern has the [g] flag, so the
    search starts at the [lastIndex] the previous call left and leaves its
    own: the end of the match, or 0 when there is none. *)
Definition testUrl (lastIndex : nat) (part : JsString) : bool * nat :=
  if length part <? lastIndex then (false, 0)
  else match searchUrl (skipn lastIndex part) with
       | Some (i, n) => (true, lastIndex + i + n)
       | None => (false, 0)
       end.

(** What the component renders. *)
Inductive Inline :=
| Strong (t : JsString)
| Span (t : JsString).

Inductive Child :=
| Anchor (href : JsString) (label : JsString)
| Inlines (l : list Inline).

(** Lines 33-38, the callback of [boldParts.map], from index [boldIndex]. *)
Fixpoint renderBold (boldIndex : nat) (boldParts : list JsString)
  : list Inline :=
  match boldParts with
  | [] => []
  | boldPart :: rest =>
      (if Nat.eqb (Nat.modulo boldIndex 2) 1
       then Strong boldPart else Span boldPart)
        :: renderBold (S boldIndex) rest
  end.

(** Lines 16-39, the callback of [parts.map], threading the [lastIndex] of
    [urlRegex]. *)
Fixpoint renderParts (lastIndex : nat) (parts : list JsString)
  : list Child :=
  match parts with
  | [] => []
  | part :: rest =>
      let '(isUrl, lastIndex') := testUrl lastIndex part in
      (if isUrl then Anchor part part
       else Inlines (renderBold 0 (split boldMatcher part)))
        :: renderParts lastIndex' rest
  end.

(** Lines 9-42. *)
Definition FormattedText (text : JsString) : list Child :=
  let parts := split urlMatcher text in
  renderParts 0 parts.

End FormattedText.

(* ===================================================================== *)
(** ** Further notions the properties are stated with *)
(* ===================================================================== *)

Module Shapes.
Import GeminiService ChatInterface CameraCapture App FormattedText.

(** The roles of a history of [n] completed exchanges, followed by the
    user turn that awaits its answer when [loading]. *)
Definition turnRoles (n : nat) (loading : bool) : list Role :=
  List.concat (repeat [user; model] n) ++ (if loading then [user] else []).

(** The message line 100-103 builds for an error. *)
Definition errorBubble (e : JsString) : ChatMessage :=
  {| role := model;
     parts := [ {| text := Some (sorryPrefix ++ e); inlineData := None |} ];
     groundingSources := None |}.

(** The shape of a stored message: a user message has one or two parts and
    no sources; a model message has one part and sources with pairwise
    distinct uris, if any. *)
Definition wellShaped (m : ChatMessage) : Prop :=
  match role m with
  | user =>
      1 <= length (parts m) <= 2 /\ groundingSources m = None
  | model =>
      length (parts m) = 1
      /\ match groundingSources m with
         | Some l => NoDup (List.map uri l)
         | None => True
         end
  end.



(** The text of a rendering, with the bold markers put back. *)
Definition inlineText (i : Inline) : JsString :=
  match i with
  | Strong t => stars ++ t ++ stars
  | Span t => t
  end.

Definition childText (c : Child) : JsString :=
  match c with
  | Anchor _ label => label
  | Inlines l => List.concat (List.map inlineText l)
  end.

Definition renderedText (children : list Child) : JsString :=
  List.concat (List.map childText children).

(** [urlRegex.test(part)] on a pattern whose [lastIndex] is 0. *)
Definition isUrl (part : JsString) : bool := fst (testUrl 0 part).

(** The rendering of one part by a pattern whose [lastIndex] is 0. *)
Definition renderPart (part : JsString) : Child :=
  if isUrl part then Anchor part part
  else Inlines (renderBold 0 (split boldMatcher part)).

(** The shape of a list of parts, from a position where a url is expected
    or not: texts in which the url pattern matches nowhere alternate with
    texts it matches from end to end, and the list ends with one of the
    former. *)
Fixpoint partsShape (expectUrl : bool) (parts : list JsString) : Prop :=
  match parts with
  | [] => expectUrl = true
  | part :: rest =>
      (if expectUrl then matchUrlAt part = Some (length part)
       else searchUrl part = None)
      /\ partsShape (negb expectUrl) rest
  end.

Definition noWhiteSpace (s : JsString) : bool :=
  forallb (fun c => negb (isWhiteSpace c)) s.

Definition noLineTerminator (s : JsString) : bool :=
  forallb (fun c => negb (isLineTerminator c)) s.

End Shapes.

Import GeminiService ChatInterface CameraCapture App Reference.

(* ===================================================================== *)
(** ** Facts about the JavaScript values *)
(* ===================================================================== *)

Lemma sameValue_true (a b : JsString) : sameValue a b = true <-> a = b.
Proof.
  unfold sameValue. destruct (JsString_eq_dec a b); split; congruence.
Qed.

Lemma sameValue_false (a b : JsString) : sameValue a b = false <-> a <> b.
Proof.
  unfold sameValue. destruct (JsString_eq_dec a b); split; congruence.
Qed.

Lemma sameValue_refl (a : JsString) : sameValue a a = true.
Proof. now apply sameValue_true. Qed.

Lemma sameValue_sym (a b : JsString) : sameValue a b = sameValue b a.
Proof.
  destruct (sameValue b a) eqn:E.
  - apply sameValue_true in E. subst. apply sameValue_refl.
  - apply sameValue_false in E. apply sameValue_false. congruence.
Qed.

Lemma trimStart_whitespace (s : JsString) :
  forallb isWhiteSpace s = true -> trimStart s = [].
Proof.
  induction s as [|c s IH]; simpl; [reflexivity|].
  intros H. apply andb_true_iff in H as [Hc Hs]. rewrite Hc. auto.
Qed.

Lemma trim_whitespace (s : JsString) :
  forallb isWhiteSpace s = true -> trim s = [].
Proof.
  intros H. unfold trim, trimEnd. now rewrite (trimStart_whitespace s H).
Qed.

Section MapFacts.
Variable V : Type.
Implicit Types (m : JsMap V) (k : JsString) (v : V).
Implicit Types (entries : list (JsString * V)).

Lemma hasKey_In ks k : hasKey ks k = true <-> In k ks.
Proof.
  unfold hasKey. rewrite existsb_exists. split.
  - intros [x [Hx E]]. apply sameValue_true in E. now subst.
  - intros H. exists k. split; [assumption | apply sameValue_refl].
Qed.

Lemma hasKey_not_In ks k : hasKey ks k = false <-> ~ In k ks.
Proof.
  rewrite <- hasKey_In. destruct (hasKey ks k); split; congruence.
Qed.

Lemma map_set_keys m k v :
  map_keys (map_set m k v)
  = if hasKey (map_keys m) k then map_keys m else map_keys m ++ [k].
Proof.
  induction m as [|[k' v'] m IH]; simpl; [reflexivity|].
  destruct (sameValue k' k) eqn:E; simpl; [reflexivity|].
  unfold map_keys in *. rewrite IH.
  now destruct (hasKey (List.map fst m) k).
Qed.

Lemma map_set_fresh m k v :
  ~ In k (map_keys m) -> map_set m k v = m ++ [(k, v)].
Proof.
  induction m as [|[k' v'] m IH]; simpl; intros H; [reflexivity|].
  destruct (sameValue k' k) eqn:E.
  - apply sameValue_true in E. tauto.
  - f_equal. apply IH. tauto.
Qed.

Lemma map_get_set m k v k' :
  map_get (map_set m k v) k'
  = if sameValue k k' then Some v else map_get m k'.
Proof.
  induction m as [|[k0 v0] m IH]; simpl; [reflexivity|].
  destruct (sameValue k0 k) eqn:E; simpl.
  - apply sameValue_true in E. subst k0.
    now destruct (sameValue k k').
  - rewrite IH. destruct (sameValue k0 k') eqn:E'; [|reflexivity].
    apply sameValue_true in E'. subst k0.
    now rewrite (sameValue_sym k k'), E.
Qed.

Lemma map_get_In m k v :
  NoDup (map_keys m) -> In (k, v) m -> map_get m k = Some v.
Proof.
  induction m as [|[k0 v0] m IH]; simpl; [tauto|].
  intros Hnd [H | H].
  - inversion H; subst. now rewrite sameValue_refl.
  - inversion Hnd as [|? ? Hnotin Hnd']; subst.
    destruct (sameValue k0 k) eqn:E.
    + apply sameValue_true in E. subst k0. exfalso. apply Hnotin.
      unfold map_keys. now apply (in_map fst _ (k, v)).
    + now apply IH.
Qed.

Lemma fold_set_get entries : forall m k,
  map_get (fold_left (@setEntry V) entries m) k
  = match lastBinding entries k with
    | Some v => Some v
    | None => map_get m k
    end.
Proof.
  induction entries as [|[k0 v0] entries IH]; intros m k; simpl;
    [reflexivity|].
  rewrite IH. destruct (lastBinding entries k); [reflexivity|].
  unfold setEntry; simpl. rewrite map_get_set.
  now destruct (sameValue k0 k).
Qed.

Lemma filter_filter_absorb (p q : JsString -> bool) (l : list JsString) :
  (forall x, q x = true -> p x = true) ->
  List.filter q (List.filter p l) = List.filter q l.
Proof.
  intros H. induction l as [|x l IH]; simpl; [reflexivity|].
  destruct (p x) eqn:Ep; simpl.
  - rewrite IH. reflexivity.
  - destruct (q x) eqn:Eq; [|assumption].
    apply H in Eq. congruence.
Qed.

Lemma fold_set_keys entries : forall m,
  map_keys (fold_left (@setEntry V) entries m)
  = map_keys m
    ++ List.filter (fun k => negb (hasKey (map_keys m) k))
                   (firstSeen (List.map fst entries)).
Proof.
  induction entries as [|[k0 v0] entries IH]; intros m; simpl.
  - now rewrite app_nil_r.
  - rewrite IH. unfold setEntry; simpl fst; simpl snd. rewrite map_set_keys.
    destruct (hasKey (map_keys m) k0) eqn:E; simpl.
    + f_equal. symmetry. apply filter_filter_absorb.
      intros x Hx. apply negb_true_iff in Hx. apply negb_true_iff.
      apply sameValue_false. intros ->. congruence.
    + rewrite <- app_assoc. simpl. f_equal. f_equal.
      rewrite <- (filter_filter_absorb
                    (fun k' => negb (sameValue k' k0))
                    (fun k => negb (hasKey (map_keys m ++ [k0]) k))).
      2:{ intros x Hx. apply negb_true_iff in Hx. apply negb_true_iff.
          apply sameValue_false. intros ->.
          apply hasKey_not_In in Hx. apply Hx.
          apply in_or_app. right. now left. }
      rewrite (filter_ext
                 (fun k => negb (hasKey (map_keys m ++ [k0]) k))
                 (fun k => negb (hasKey (map_keys m) k)
                           && negb (sameValue k k0))).
      2:{ intros x. unfold hasKey. rewrite existsb_app. simpl.
          rewrite orb_false_r, negb_orb.
          now rewrite (sameValue_sym k0 x). }
      generalize (firstSeen (List.map fst entries)) as l.
      induction l as [|x l IHl]; simpl; [reflexivity|].
      destruct (sameValue x k0) eqn:Ex; simpl.
      * assumption.
      * rewrite Ex. simpl. rewrite andb_true_r.
        destruct (hasKey (map_keys m) x); simpl; now rewrite IHl.
Qed.

Lemma map_of_entries_keys entries :
  map_keys (map_of_entries entries) = firstSeen (List.map fst entries).
Proof.
  unfold map_of_entries.
  rewrite fold_set_keys. simpl.
  generalize (firstSeen (List.map fst entries)) as l.
  induction l as [|x l IHl]; simpl; congruence.
Qed.

Lemma map_of_entries_get entries k :
  map_get (map_of_entries entries) k = lastBinding entries k.
Proof.
  unfold map_of_entries.
  rewrite fold_set_get. simpl. now destruct (lastBinding entries k).
Qed.

Lemma fold_set_nodup entries : forall m,
  NoDup (map_keys m ++ List.map fst entries) ->
  fold_left (@setEntry V) entries m = m ++ entries.
Proof.
  induction entries as [|[k0 v0] entries IH]; intros m H; simpl.
  - now rewrite app_nil_r.
  - simpl in H. pose proof (NoDup_remove_2 _ _ _ H) as Hk.
    unfold setEntry at 2; simpl fst; simpl snd.
    rewrite map_set_fresh by (intros Hin; apply Hk; apply in_or_app; now left).
    rewrite IH.
    + now rewrite <- app_assoc.
    + unfold map_keys. rewrite map_app. simpl. rewrite <- app_assoc. simpl.
      exact H.
Qed.

Lemma map_of_entries_nodup entries :
  NoDup (List.map fst entries) -> map_of_entries entries = entries.
Proof.
  intros H. unfold map_of_entries.
  now rewrite fold_set_nodup.
Qed.

End MapFacts.

Lemma firstSeen_incl (l : list JsString) k : In k (firstSeen l) -> In k l.
Proof.
  induction l as [|x l IH]; simpl; [tauto|].
  intros [H | H]; [now left|].
  apply filter_In in H as [H _]. right. now apply IH.
Qed.

Lemma firstSeen_NoDup (l : list JsString) : NoDup (firstSeen l).
Proof.
  induction l as [|x l IH]; simpl; constructor.
  - intros H. apply filter_In in H as [_ H].
    now rewrite sameValue_refl in H.
  - now apply NoDup_filter.
Qed.

(* ===================================================================== *)
(** ** The deduplication of grounding sources (line 65) *)
(* ===================================================================== *)

Section UniqueSources.
Implicit Types (gs : list GroundingSource) (s : GroundingSource).

Local Abbreviation entry :=
  (fun item : GroundingSource => (uri item, item)).

Lemma entries_keys gs : List.map fst (List.map entry gs) = List.map uri gs.
Proof. rewrite map_map. reflexivity. Qed.

Lemma entries_values gs : List.map snd (List.map entry gs) = gs.
Proof. rewrite map_map. simpl. apply map_id. Qed.

Lemma lastBinding_entries gs u :
  lastBinding (List.map entry gs) u = lastWithUri u gs.
Proof.
  induction gs as [|s gs IH]; simpl; [reflexivity|]. now rewrite IH.
Qed.

Lemma lastWithUri_uri gs u s : lastWithUri u gs = Some s -> uri s = u.
Proof.
  induction gs as [|s0 gs IH]; simpl; [discriminate|].
  destruct (lastWithUri u gs) as [s'|].
  - intros H. inversion H; subst. now apply IH.
  - destruct (sameValue (uri s0) u) eqn:E; [|discriminate].
    intros H. inversion H; subst. now apply sameValue_true.
Qed.

Lemma lastWithUri_In gs u s : lastWithUri u gs = Some s -> In s gs.
Proof.
  induction gs as [|s0 gs IH]; simpl; [discriminate|].
  destruct (lastWithUri u gs) as [s'|].
  - intros H. inversion H; subst. right. now apply IH.
  - destruct (sameValue (uri s0) u); [|discriminate].
    intros H. inversion H. now left.
Qed.

Lemma uniqueSources_keys_NoDup gs :
  NoDup (map_keys (map_of_entries (List.map entry gs))).
Proof. rewrite map_of_entries_keys. apply firstSeen_NoDup. Qed.

(** Every entry the map holds binds a uri to the last source carrying it. *)
Lemma uniqueSources_entry gs k s :
  In (k, s) (map_of_entries (List.map entry gs)) ->
  lastWithUri k gs = Some s.
Proof.
  intros H. apply map_get_In in H; [|apply uniqueSources_keys_NoDup].
  now rewrite map_of_entries_get, lastBinding_entries in H.
Qed.

Lemma uniqueSources_In_last gs s :
  In s (uniqueSources gs) -> lastWithUri (uri s) gs = Some s.
Proof.
  unfold uniqueSources, map_values. intros H.
  apply in_map_iff in H as [[k s'] [E H]]. simpl in E. subst s'.
  pose proof (uniqueSources_entry _ _ _ H) as L.
  now rewrite (lastWithUri_uri _ _ L).
Qed.

Lemma uniqueSources_uris gs :
  List.map uri (uniqueSources gs) = firstSeen (List.map uri gs).
Proof.
  rewrite <- (entries_keys gs), <- map_of_entries_keys.
  unfold uniqueSources, map_values, map_keys. rewrite map_map.
  apply map_ext_in. intros [k s] H. simpl.
  apply uniqueSources_entry in H. now apply lastWithUri_uri in H.
Qed.

Lemma uniqueSources_NoDup gs : NoDup (List.map uri (uniqueSources gs)).
Proof. rewrite uniqueSources_uris. apply firstSeen_NoDup. Qed.

Lemma uniqueSources_fixed gs :
  NoDup (List.map uri gs) -> uniqueSources gs = gs.
Proof.
  intros H. unfold uniqueSources.
  rewrite map_of_entries_nodup by now rewrite entries_keys.
  apply entries_values.
Qed.

Lemma uniqueSources_incl gs s : In s (uniqueSources gs) -> In s gs.
Proof.
  intros H. apply uniqueSources_In_last in H.
  now apply lastWithUri_In in H.
Qed.

End UniqueSources.

(** C1, as stated, fails: on two citations of one uri with different titles
    the entry kept carries the title of the second one, whereas the
    first-seen entry, and the deduplication that keeps it, carry the
    first. *)
Lemma C1_first_entry_not_kept :
  let a1 := {| uri := lit "a"; title := lit "A1" |} in
  let a2 := {| uri := lit "a"; title := lit "A2" |} in
  uniqueSources [a1; a2] = [a2]
  /\ firstWithUri (lit "a") [a1; a2] = Some a1
  /\ dedupKeepingFirst [a1; a2] = [a1]
  /\ uniqueSources [a1; a2] <> dedupKeepingFirst [a1; a2].
Proof.
  repeat split; try reflexivity. vm_compute. discriminate.
Qed.

(** C1 (amended): for every list of grounding sources, the deduplication
    lists the distinct uris in order of first occurrence, no two sources of
    its output share a uri, and the entry it keeps for a uri is the
    last-seen one (so the title is the last occurrence's). *)
Theorem C1_uniqueSources_first_position_last_entry :
  forall gs : list GroundingSource,
    List.map uri (uniqueSources gs) = firstSeen (List.map uri gs)
    /\ NoDup (List.map uri (uniqueSources gs))
    /\ (forall s, In s (uniqueSources gs) ->
                  lastWithUri (uri s) gs = Some s).
Proof.
  intros gs. split; [|split].
  - apply uniqueSources_uris.
  - apply uniqueSources_NoDup.
  - intros s. apply uniqueSources_In_last.
Qed.

(** C6: the deduplication is idempotent, and its output lists the uris in
    order of first occurrence. *)
Theorem C6_uniqueSources_idempotent :
  forall gs : list GroundingSource,
    uniqueSources (uniqueSources gs) = uniqueSources gs
    /\ List.map uri (uniqueSources gs) = firstSeen (List.map uri gs).
Proof.
  intros gs. split.
  - apply uniqueSources_fixed, uniqueSources_NoDup.
  - apply uniqueSources_uris.
Qed.

(* ===================================================================== *)
(** ** The exchange: request assembly and normalisation of the reply *)
(* ===================================================================== *)

Lemma groundingSourcesOf_provenance cs s :
  In s (groundingSourcesOf (Some cs)) ->
  exists chunk,
    In chunk cs
    /\ web chunk = Some {| web_uri := Some (uri s); web_title := Some (title s) |}.
Proof.
  simpl. intros H. apply in_map_iff in H as [chunk [E H]].
  apply filter_In in H as [Hin Hp]. exists chunk. split; [assumption|].
  unfold chunkHasSource in Hp. unfold chunkToSource in E.
  destruct chunk as [[[[u|] [t|]]|]]; simpl in *;
    rewrite ?andb_false_r in Hp; try discriminate.
  now subst s.
Qed.

Lemma lacking_chunk_filtered chunk :
  lacksUriOrTitle chunk -> chunkHasSource chunk = false.
Proof.
  unfold lacksUriOrTitle, chunkHasSource.
  destruct (web chunk) as [[u t]|]; simpl; [|reflexivity].
  intros [-> | ->]; simpl; [reflexivity | apply andb_false_r].
Qed.

Lemma groundingSourcesOf_skip cs1 chunk cs2 :
  lacksUriOrTitle chunk ->
  groundingSourcesOf (Some (cs1 ++ chunk :: cs2))
  = groundingSourcesOf (Some (cs1 ++ cs2)).
Proof.
  intros H. simpl. rewrite !filter_app. simpl.
  now rewrite (lacking_chunk_filtered _ H).
Qed.

Lemma sendMessageToGemini_fulfilled generateContent history message image r :
  generateContent (contents history message image) = Fulfilled r ->
  sendMessageToGemini generateContent history message image
  = Normal (Success (responseText r)
                    (uniqueSources (groundingSourcesOf (groundingChunks r)))).
Proof.
  intros H. unfold sendMessageToGemini, tryBlock. now rewrite H.
Qed.

(** C2: the code departs from the claim. With an empty [newText] and an
    image, the final turn of the request still opens with a text part, an
    empty one, before the inline-data part; the message the store keeps for
    the same submission has the image part only, and that is also what the
    next exchange replays for it from the history. *)
Theorem C2_empty_text_part_is_sent :
  forall (history : list ChatMessage) (img : Image),
    nth_error (contents history [] (Some img)) (length history)
    = Some {| c_role := user; c_parts := [textPart []; imagePart img] |}
    /\ parts (userMessage [] (Some img)) = [imagePart img]
    /\ convertMessage (userMessage [] (Some img))
       = {| c_role := user; c_parts := [imagePart img] |}.
Proof.
  intros history img. split; [|split]; try reflexivity.
  unfold contents. rewrite nth_error_app2; rewrite length_map; [|lia].
  now rewrite Nat.sub_diag.
Qed.

(** C3: whatever the input and however the provider call settles, the
    exchange completes normally, never by a throw: with [{ text, sources }]
    when the call is fulfilled, with [{ error: message }] when it is
    rejected with an [Error], and with the fallback string when it is
    rejected with anything else. *)
Theorem C3_sendMessageToGemini_never_throws :
  forall (generateContent : list Content -> Outcome)
         (history : list ChatMessage) (message : JsString)
         (image : option Image),
    sendMessageToGemini generateContent history message image
    = Normal
        match generateContent (contents history message image) with
        | Fulfilled response =>
            Success (responseText response)
                    (uniqueSources
                       (groundingSourcesOf (groundingChunks response)))
        | Rejected (ErrorInstance description) => Failure description
        | Rejected OtherValue => Failure (lit "An unknown error occurred.")
        end
    /\ forall e, sendMessageToGemini generateContent history message image
                 <> Throw e.
Proof.
  intros generateContent history message image.
  assert (E : sendMessageToGemini generateContent history message image
              = Normal
                  match generateContent (contents history message image) with
                  | Fulfilled response =>
                      Success (responseText response)
                              (uniqueSources
                                 (groundingSourcesOf (groundingChunks response)))
                  | Rejected (ErrorInstance description) => Failure description
                  | Rejected OtherValue =>
                      Failure (lit "An unknown error occurred.")
                  end).
  { unfold sendMessageToGemini, tryBlock.
    destruct (generateContent (contents history message image)) as [r|[m|]];
      reflexivity. }
  split; [exact E|]. intros e. rewrite E. discriminate.
Qed.

(** The example of C4: [[{uri:"a",title:"A"},{title:"B"}]] yields
    [[{uri:"a",title:"A"}]]. *)
Example exchange_drops_citation_without_uri :
  forall txt history message image,
    sendMessageToGemini
      (fun _ => Fulfilled
         {| responseText := txt;
            groundingChunks :=
              Some [ {| web := Some {| web_uri := Some (lit "a");
                                       web_title := Some (lit "A") |} |};
                     {| web := Some {| web_uri := None;
                                       web_title := Some (lit "B") |} |} ] |})
      history message image
    = Normal (Success txt [ {| uri := lit "a"; title := lit "A" |} ]).
Proof. reflexivity. Qed.

(** C4: when the provider call is fulfilled, every source of the exchange
    result comes from a citation that has both a uri and a title, and a
    citation lacking either one is excluded: the sources are those of the
    citation list without it. *)
Theorem C4_citations_lacking_uri_or_title_excluded :
  forall (generateContent : list Content -> Outcome)
         (history : list ChatMessage) (message : JsString)
         (image : option Image) (response : GenerateContentResponse)
         (chunks : list GroundingChunk),
    generateContent (contents history message image) = Fulfilled response ->
    groundingChunks response = Some chunks ->
    exists sources,
      sendMessageToGemini generateContent history message image
      = Normal (Success (responseText response) sources)
      /\ (forall s, In s sources ->
            exists chunk,
              In chunk chunks
              /\ web chunk = Some {| web_uri := Some (uri s);
                                     web_title := Some (title s) |})
      /\ (forall cs1 chunk cs2,
            chunks = cs1 ++ chunk :: cs2 ->
            lacksUriOrTitle chunk ->
            sources = uniqueSources (groundingSourcesOf (Some (cs1 ++ cs2)))).
Proof.
  intros generateContent history message image response chunks Hr Hc.
  exists (uniqueSources (groundingSourcesOf (Some chunks))).
  split; [|split].
  - rewrite (sendMessageToGemini_fulfilled _ _ _ _ Hr). now rewrite Hc.
  - intros s H. apply uniqueSources_incl in H.
    now apply groundingSourcesOf_provenance.
  - intros cs1 chunk cs2 -> L. now rewrite groundingSourcesOf_skip by exact L.
Qed.

Lemma C4_citations_lacking_uri_or_title_excluded_witness :
  let bare := {| web := Some {| web_uri := None;
                                web_title := Some (lit "B") |} |} in
  let full := {| web := Some {| web_uri := Some (lit "a");
                                web_title := Some (lit "A") |} |} in
  let response := {| responseText := Some (lit "ok");
                     groundingChunks := Some [full; bare] |} in
  exists sources,
    sendMessageToGemini (fun _ => Fulfilled response) [] (lit "q") None
    = Normal (Success (Some (lit "ok")) sources)
    /\ (forall s, In s sources ->
          exists chunk,
            In chunk [full; bare]
            /\ web chunk = Some {| web_uri := Some (uri s);
                                   web_title := Some (title s) |})
    /\ (forall cs1 chunk cs2,
          [full; bare] = cs1 ++ chunk :: cs2 ->
          lacksUriOrTitle chunk ->
          sources = uniqueSources (groundingSourcesOf (Some (cs1 ++ cs2)))).
Proof.
  intros bare full response.
  apply (C4_citations_lacking_uri_or_title_excluded
           (fun _ => Fulfilled response) [] (lit "q") None
           (response := response) (chunks := [full; bare]));
    reflexivity.
Defined.

Lemma convertPart_cases (part : ChatPart) :
  (forall t, text part = Some t -> t <> [] -> convertPart part = textPart t)
  /\ (forall d, truthyProp (text part) = false -> inlineData part = Some d ->
                convertPart part = inlineDataPart d)
  /\ (truthyProp (text part) = false -> inlineData part = None ->
      convertPart part = emptyObject).
Proof.
  unfold convertPart. split; [|split].
  - intros t E Ht. rewrite E. destruct t; [congruence | reflexivity].
  - intros d E D. rewrite E, D. reflexivity.
  - intros E D. rewrite E, D. reflexivity.
Qed.

(** C5: the assembled turn sequence is the history, message by message in
    its order, each as [{ role, parts }] with every part re-expressed as a
    text part, an inline-data part or, lacking both, an empty object; the
    new user turn comes last, its text part before its image part; and an
    empty history with text "hi" and no image gives the single user turn
    with the one text part "hi". *)
Theorem C5_contents_history_then_new_turn :
  forall (history : list ChatMessage) (message : JsString)
         (image : option Image),
    let assembled := contents history message image in
    length assembled = S (length history)
    /\ (forall i msg,
          nth_error history i = Some msg ->
          nth_error assembled i
          = Some {| c_role := role msg;
                    c_parts := List.map convertPart (parts msg) |})
    /\ (forall part : ChatPart,
          (forall t, text part = Some t -> t <> [] ->
                     convertPart part = textPart t)
          /\ (forall d, truthyProp (text part) = false ->
                        inlineData part = Some d ->
                        convertPart part = inlineDataPart d)
          /\ (text part = None -> inlineData part = None ->
              convertPart part = emptyObject))
    /\ nth_error assembled (length history)
       = Some {| c_role := user;
                 c_parts := textPart message
                            :: match image with
                               | Some img => [imagePart img]
                               | None => []
                               end |}
    /\ contents [] (lit "hi") None
       = [ {| c_role := user; c_parts := [textPart (lit "hi")] |} ].
Proof.
  intros history message image assembled. subst assembled. unfold contents.
  split; [|split; [|split; [|split]]].
  - rewrite length_app, length_map. simpl. lia.
  - intros i msg H.
    rewrite nth_error_app1 by (rewrite length_map; apply nth_error_Some; congruence).
    rewrite nth_error_map, H. reflexivity.
  - intros part. destruct (convertPart_cases part) as [A [B C]].
    split; [exact A | split; [exact B|]].
    intros E D. apply C; [now rewrite E | exact D].
  - rewrite nth_error_app2; rewrite length_map; [|lia].
    rewrite Nat.sub_diag. simpl. now destruct image.
  - reflexivity.
Qed.

Lemma C5_contents_history_then_new_turn_witness :
  let shot := {| base64 := lit "AAAA"; imageMimeType := lit "image/jpeg" |} in
  let first := {| role := user; parts := [textPart (lit "one")];
                  groundingSources := None |} in
  let second := {| role := model; parts := [textPart (lit "two")];
                   groundingSources := Some [] |} in
  contents [first; second] (lit "look") (Some shot)
  = [ {| c_role := user; c_parts := [textPart (lit "one")] |};
      {| c_role := model; c_parts := [textPart (lit "two")] |};
      {| c_role := user; c_parts := [textPart (lit "look"); imagePart shot] |} ]
  /\ nth_error (contents [first; second] (lit "look") (Some shot)) 1
     = Some {| c_role := model;
               c_parts := List.map convertPart (parts second) |}
  /\ convertPart emptyObject = emptyObject.
Proof.
  intros shot first second.
  pose proof (C5_contents_history_then_new_turn
                [first; second] (lit "look") (Some shot)) as H.
  cbv zeta in H. destruct H as [_ [Hnth [Hpart _]]].
  split; [reflexivity | split].
  - apply (Hnth 1 second). reflexivity.
  - apply (Hpart emptyObject); reflexivity.
Defined.

(* ===================================================================== *)
(** ** The conversation store *)
(* ===================================================================== *)

Lemma handleSendMessage_nothing_pending (st : Store) :
  trim (input st) = [] -> imageToSend st = None ->
  handleSendMessage st = (st, None).
Proof.
  intros T I. unfold handleSendMessage. now rewrite T, I.
Qed.

Lemma handleSendMessage_cases (st : Store) :
  handleSendMessage st = (st, None)
  \/ exists st',
       handleSendMessage st
       = (st', Some {| call_history := messages st;
                       call_message := trim (input st);
                       call_image := imageToSend st |})
       /\ messages st'
          = messages st ++ [userMessage (trim (input st)) (imageToSend st)]
       /\ isLoading st' = true
       /\ input st' = [] /\ imageToSend st' = None
       /\ isCameraOpen st' = isCameraOpen st.
Proof.
  unfold handleSendMessage.
  destruct (negb (truthy (trim (input st))) && negb (isSome (imageToSend st))).
  - now left.
  - right. eexists. split; [reflexivity|]. simpl. repeat split.
Qed.

Lemma userMessage_text_parts (t : JsString) (image : option Image) :
  role (userMessage t image) = user
  /\ (forall p x, In p (parts (userMessage t image)) -> text p = Some x -> x = t)
  /\ (t <> [] -> In (textPart t) (parts (userMessage t image))).
Proof.
  unfold userMessage. split; [reflexivity|]. split.
  - intros p x H E. simpl in H.
    destruct t as [|c t], image as [img|]; simpl in H;
      repeat (destruct H as [H | H]; [subst p; simpl in E; congruence|]);
      contradiction.
  - intros Ht. destruct t as [|c t]; [congruence|].
    simpl. destruct image; simpl; now left.
Qed.

Lemma contents_last (history : list ChatMessage) (message : JsString)
      (image : option Image) :
  nth_error (contents history message image) (length history)
  = Some {| c_role := user;
            c_parts := textPart message
                       :: match image with
                          | Some img => [imagePart img]
                          | None => []
                          end |}.
Proof.
  unfold contents. rewrite nth_error_app2; rewrite length_map; [|lia].
  rewrite Nat.sub_diag. simpl. now destruct image.
Qed.

Lemma sendMessageToGemini_normal generateContent history message image :
  exists result,
    sendMessageToGemini generateContent history message image = Normal result.
Proof.
  unfold sendMessageToGemini, tryBlock.
  destruct (generateContent (contents history message image)) as [r|[m|]];
    eexists; reflexivity.
Qed.

Lemma resume_isLoading result st :
  isLoading (handleSendMessage_resume result st) = false.
Proof. reflexivity. Qed.

(** C7: with an empty pending text and no pending image, a submission, by
    the Enter key or by the send button, changes nothing: the store, and so
    the message history, is as before, no exchange is issued, and an idle
    store stays idle. *)
Theorem C7_submit_with_nothing_pending_is_noop :
  forall (sys : System) (e : Event),
    input (store sys) = [] ->
    imageToSend (store sys) = None ->
    isSubmission e = true ->
    handleSendMessage (store sys) = (store sys, None)
    /\ store (step sys e) = store sys
    /\ messages (store (step sys e)) = messages (store sys)
    /\ inFlight (step sys e) = inFlight sys
    /\ (idle sys -> idle (step sys e)).
Proof.
  intros sys e I Img S.
  assert (H : handleSendMessage (store sys) = (store sys, None)).
  { apply handleSendMessage_nothing_pending; [now rewrite I | exact Img]. }
  assert (Hs : store (step sys e) = store sys
               /\ inFlight (step sys e) = inFlight sys).
  { destruct e; try discriminate; simpl.
    - destruct (textareaDisabled (store sys)); [now split|].
      unfold submit. now rewrite H.
    - destruct (sendDisabled (store sys)); [now split|].
      unfold submit. now rewrite H. }
  destruct Hs as [Hst Hfl]. unfold idle.
  repeat split; try assumption; now rewrite Hst.
Qed.

Lemma C7_submit_with_nothing_pending_is_noop_witness :
  input (store initial) = []
  /\ imageToSend (store initial) = None
  /\ isSubmission PressEnter = true
  /\ handleSendMessage (store initial) = (store initial, None)
  /\ store (step initial PressEnter) = store initial
  /\ messages (store (step initial PressEnter)) = messages (store initial)
  /\ inFlight (step initial PressEnter) = inFlight initial
  /\ (idle initial -> idle (step initial PressEnter)).
Proof.
  split; [reflexivity | split; [reflexivity | split; [reflexivity|]]].
  apply (C7_submit_with_nothing_pending_is_noop initial PressEnter);
    reflexivity.
Defined.

(** The number of exchanges awaiting the provider is one while the store
    is loading and zero otherwise; every event keeps it so. *)
Lemma step_keeps_in_flight_count (sys : System) (e : Event) :
  length (inFlight sys) = (if isLoading (store sys) then 1 else 0) ->
  length (inFlight (step sys e))
  = (if isLoading (store (step sys e)) then 1 else 0).
Proof.
  intros Inv.
  assert (Sub : isLoading (store sys) = false ->
                length (inFlight (submit sys))
                = (if isLoading (store (submit sys)) then 1 else 0)).
  { intros L. rewrite L in Inv. unfold submit.
    destruct (handleSendMessage_cases (store sys)) as [H | [st' [H [_ [L' _]]]]];
      rewrite H; simpl.
    - now rewrite L.
    - rewrite L', length_app, Inv. reflexivity. }
  destruct e; simpl.
  - destruct (textareaDisabled (store sys)); assumption.
  - unfold textareaDisabled.
    destruct (isLoading (store sys)) eqn:L; [now rewrite L | now apply Sub].
  - unfold sendDisabled.
    destruct (isLoading (store sys)) eqn:L.
    + rewrite orb_true_r. now rewrite L.
    + rewrite orb_false_r.
      destruct (negb (truthy (trim (input (store sys))))
                && negb (isSome (imageToSend (store sys))));
        [now rewrite L | now apply Sub].
  - destruct (isSome (imageToSend (store sys))); assumption.
  - assumption.
  - destruct (capture sys) as [c|]; [|assumption].
    destruct (isSome (stream c)); [assumption|].
    destruct (startCamera granted c (device sys)). assumption.
  - destruct (capture sys) as [c|]; [|assumption].
    destruct (isSome (stream c)); [|assumption].
    destruct canvas as [b|]; simpl; [|assumption].
    destruct (stopCamera c (device sys)). assumption.
  - destruct (capture sys) as [c|]; assumption.
  - destruct (inFlight sys) as [|call rest] eqn:F; [now rewrite F|].
    destruct (sendMessageToGemini_normal (fun _ => outcome)
                (call_history call) (call_message call) (call_image call))
      as [result R].
    rewrite R. simpl.
    simpl in Inv. destruct (isLoading (store sys)); [|discriminate].
    destruct rest; [reflexivity | discriminate].
Qed.

Lemma reachable_in_flight_count (sys : System) :
  reachable sys ->
  length (inFlight sys) = (if isLoading (store sys) then 1 else 0).
Proof.
  intros [trace <-]. unfold run.
  assert (G : forall s,
             length (inFlight s) = (if isLoading (store s) then 1 else 0) ->
             length (inFlight (fold_left step trace s))
             = (if isLoading (store (fold_left step trace s)) then 1 else 0)).
  { induction trace as [|e trace IH]; intros s H; simpl; [assumption|].
    apply IH. now apply step_keeps_in_flight_count. }
  apply G. reflexivity.
Qed.

Lemma submission_ignored_while_loading (sys : System) (e : Event) :
  isLoading (store sys) = true -> isSubmission e = true -> step sys e = sys.
Proof.
  intros L S. destruct e; try discriminate; simpl.
  - unfold textareaDisabled. now rewrite L.
  - unfold sendDisabled. now rewrite L, orb_true_r.
Qed.

(** C9: in every reachable state at most one exchange is in flight; the
    store awaits a response exactly when one is; and while it does, a
    submission attempt by the Enter key or by the send button leaves the
    whole state as it is: no user message is appended and no second
    exchange is issued. *)
Theorem C9_at_most_one_exchange_in_flight :
  forall sys : System,
    reachable sys ->
    length (inFlight sys) <= 1
    /\ (awaitingResponse sys <-> length (inFlight sys) = 1)
    /\ (awaitingResponse sys ->
        forall e, isSubmission e = true -> step sys e = sys).
Proof.
  intros sys R. pose proof (reachable_in_flight_count R) as Inv.
  unfold awaitingResponse. split; [|split].
  - destruct (isLoading (store sys)); lia.
  - destruct (isLoading (store sys)); split; intros H;
      try reflexivity; try congruence; try lia.
  - intros L e S. now apply submission_ignored_while_loading.
Qed.

Lemma C9_at_most_one_exchange_in_flight_witness :
  let sys := run initial [TypeText (lit "hi"); ClickSend] in
  reachable sys
  /\ awaitingResponse sys
  /\ length (inFlight sys) <= 1
  /\ (awaitingResponse sys <-> length (inFlight sys) = 1)
  /\ (awaitingResponse sys ->
      forall e, isSubmission e = true -> step sys e = sys).
Proof.
  intros sys.
  assert (R : reachable sys).
  { exists [TypeText (lit "hi"); ClickSend]. reflexivity. }
  split; [exact R | split; [reflexivity|]].
  exact (C9_at_most_one_exchange_in_flight R).
Defined.

(** The guard of C9 lives in the controls (lines 217 and 221), not in the
    handler: called on a loading store with a pending image,
    [handleSendMessage] would issue a call. *)
Lemma handleSendMessage_has_no_loading_guard :
  let shot := {| base64 := lit "AAAA"; imageMimeType := jpeg |} in
  let st := setImageToSend (Some shot) (setIsLoading true initialStore) in
  snd (handleSendMessage st)
  = Some {| call_history := []; call_message := []; call_image := Some shot |}.
Proof. reflexivity. Qed.

(** C10: the submit operation works on the trimmed input. A text of white
    space only, with no image, is a no-op; and when a submission goes
    through, the user message appended to the history has role user, any
    text part it holds is the trimmed input (and it holds one when the
    trimmed input is non-empty), and the text handed to the exchange, which
    the exchange puts in the new turn, is the trimmed input. *)
Theorem C10_submit_acts_on_trimmed_input :
  forall st : Store,
    (forallb isWhiteSpace (input st) = true -> imageToSend st = None ->
     handleSendMessage st = (st, None))
    /\ (forall st' call,
          handleSendMessage st = (st', Some call) ->
          exists appended,
            messages st' = messages st ++ [appended]
            /\ role appended = user
            /\ (forall p t, In p (parts appended) -> text p = Some t ->
                            t = trim (input st))
            /\ (trim (input st) <> [] ->
                In (textPart (trim (input st))) (parts appended))
            /\ call_message call = trim (input st)
            /\ exists rest,
                 nth_error (contents (call_history call) (call_message call)
                                     (call_image call))
                           (length (call_history call))
                 = Some {| c_role := user;
                           c_parts := textPart (trim (input st)) :: rest |}).
Proof.
  intros st. split.
  - intros W I. apply handleSendMessage_nothing_pending; [|exact I].
    now apply trim_whitespace.
  - intros st' call H.
    destruct (handleSendMessage_cases st) as [E | [st1 [E [M _]]]];
      rewrite E in H; [discriminate|].
    inversion H; subst st' call. clear H. simpl.
    destruct (userMessage_text_parts (trim (input st)) (imageToSend st))
      as [R [T P]].
    exists (userMessage (trim (input st)) (imageToSend st)).
    repeat split; try assumption.
    eexists. apply contents_last.
Qed.

Lemma C10_submit_acts_on_trimmed_input_witness :
  let raw := setInput (lit "  hi ") initialStore in
  let blank := setInput (lit "   ") initialStore in
  trim (input raw) = lit "hi"
  /\ forallb isWhiteSpace (input blank) = true
  /\ handleSendMessage blank = (blank, None)
  /\ exists appended,
       messages (fst (handleSendMessage raw)) = [] ++ [appended]
       /\ role appended = user
       /\ (forall p t, In p (parts appended) -> text p = Some t ->
                       t = trim (input raw))
       /\ (trim (input raw) <> [] ->
           In (textPart (trim (input raw))) (parts appended))
       /\ lit "hi" = trim (input raw)
       /\ exists rest,
            nth_error (contents [] (lit "hi") None) 0
            = Some {| c_role := user;
                      c_parts := textPart (trim (input raw)) :: rest |}.
Proof.
  intros raw blank.
  split; [reflexivity | split; [reflexivity | split]].
  - apply (proj1 (C10_submit_acts_on_trimmed_input blank)); reflexivity.
  - apply (proj2 (C10_submit_acts_on_trimmed_input raw)
                 (fst (handleSendMessage raw))
                 {| call_history := []; call_message := lit "hi";
                    call_image := None |}).
    reflexivity.
Defined.

(* ===================================================================== *)
(** ** The capture component *)
(* ===================================================================== *)

(** The capture path: [capturePhoto] stops the stream it holds before the
    component goes away. *)
Lemma capture_button_stops_stream (sys : System) (c : State)
      (s : MediaStream) (b64 : JsString) :
  capture sys = Some c -> stream c = Some s ->
  capture (step sys (ClickCapture (Some b64))) = None
  /\ ~ In s (liveStreams (device (step sys (ClickCapture (Some b64))))).
Proof.
  intros C S. simpl. rewrite C, S. simpl. unfold stopCamera. rewrite S.
  simpl. split; [reflexivity|].
  intros H. apply filter_In in H as [_ H].
  now rewrite Nat.eqb_refl in H.
Qed.

(** The cancel path: the back button closes the component and leaves the
    device as it was, with the stream the component held still live. *)
Lemma back_button_keeps_device (sys : System) (c : State) :
  capture sys = Some c ->
  capture (step sys ClickBack) = None
  /\ device (step sys ClickBack) = device sys.
Proof.
  intros C. simpl. rewrite C. simpl. now split.
Qed.

(** C8: the code departs from the claim on the cancel path. Opening the
    capture UI, starting the camera (granted) and leaving by the back
    button closes the capture component while the acquired stream, 0, is
    still live; leaving by the capture button instead stops it. *)
Theorem C8_back_button_leaves_stream_live :
  let started := run initial [ClickOpenCamera; ClickStartCamera true] in
  let cancelled := step started ClickBack in
  let captured := step started (ClickCapture (Some (lit "AAAA"))) in
  capture started = Some {| stream := Some 0; cameraError := None |}
  /\ liveStreams (device started) = [0]
  /\ capture cancelled = None
  /\ isCameraOpen (store cancelled) = false
  /\ liveStreams (device cancelled) = [0]
  /\ capture captured = None
  /\ liveStreams (device captured) = [].
Proof. repeat split. Qed.

Import FormattedText Shapes.

(* ===================================================================== *)
(** ** The exchange adapter: replay, conversion, deduplication *)
(* ===================================================================== *)

Lemma firstSeen_complete (l : list JsString) k : In k l -> In k (firstSeen l).
Proof.
  induction l as [|x l IH]; simpl; [tauto|].
  destruct (JsString_eq_dec x k) as [-> | N]; [now left|].
  intros [H | H]; [congruence|]. right.
  apply filter_In. split; [now apply IH|].
  apply negb_true_iff, sameValue_false. congruence.
Qed.

(** X1: a user message the store builds from a non-empty text is replayed
    from the history, in later requests, as exactly the turn that was sent
    for it in the first place. *)
Theorem replay_of_user_message_is_turn_sent :
  forall (t : JsString) (image : option Image),
    t <> [] ->
    convertMessage (userMessage t image)
    = {| c_role := user; c_parts := userParts t image |}.
Proof.
  intros [|c t] image H; [congruence|]. now destruct image.
Qed.

Lemma replay_of_user_message_is_turn_sent_witness :
  let shot := {| base64 := lit "AAAA"; imageMimeType := lit "image/jpeg" |} in
  lit "hi" <> []
  /\ convertMessage (userMessage (lit "hi") (Some shot))
     = {| c_role := user; c_parts := userParts (lit "hi") (Some shot) |}.
Proof.
  intros shot. split; [discriminate|].
  apply (replay_of_user_message_is_turn_sent (t := lit "hi")). discriminate.
Defined.

(** X2: converting a history part is idempotent; a converted part never
    carries both a text and inline data, and never an empty text; and a part
    with a non-empty text and inline data is sent as its text alone. *)
Theorem convertPart_normalises :
  forall part : ChatPart,
    convertPart (convertPart part) = convertPart part
    /\ (text (convertPart part) = None
        \/ inlineData (convertPart part) = None)
    /\ text (convertPart part) <> Some []
    /\ (forall c t d,
          text part = Some (c :: t) -> inlineData part = Some d ->
          convertPart part = textPart (c :: t)).
Proof.
  intros [[[|c t]|] [d|]]; cbv [convertPart truthyProp truthy isSome text
                                 inlineData];
    repeat split; try (now left); try (now right); try discriminate;
    intros; unfold textPart; congruence.
Qed.

(** X3: the deduplication neither loses a uri nor invents a source: the
    uris of its output are those of its input, every source it returns is
    one of the input, and it returns no more sources than it was given. *)
Theorem uniqueSources_same_uris :
  forall gs : list GroundingSource,
    (forall u, In u (List.map uri (uniqueSources gs))
               <-> In u (List.map uri gs))
    /\ (forall s, In s (uniqueSources gs) -> In s gs)
    /\ length (uniqueSources gs) <= length gs.
Proof.
  intros gs. split; [|split].
  - intros u. rewrite uniqueSources_uris. split.
    + apply firstSeen_incl.
    + apply firstSeen_complete.
  - intros s. apply uniqueSources_incl.
  - rewrite <- (length_map uri (uniqueSources gs)), <- (length_map uri gs).
    apply NoDup_incl_length; [apply uniqueSources_NoDup|].
    intros u. rewrite uniqueSources_uris. apply firstSeen_incl.
Qed.

Lemma groundingSourcesOf_nonempty chunks s :
  In s (groundingSourcesOf chunks) -> uri s <> [] /\ title s <> [].
Proof.
  destruct chunks as [cs|]; simpl; [|tauto].
  intros H. apply in_map_iff in H as [chunk [E H]].
  apply filter_In in H as [_ Hp].
  unfold chunkHasSource in Hp. unfold chunkToSource in E.
  destruct chunk as [[[[u|] [t|]]|]]; simpl in *;
    rewrite ?andb_false_r in Hp; try discriminate.
  subst s. simpl. apply andb_true_iff in Hp as [Hu Ht].
  destruct u, t; simpl in *; try discriminate. split; discriminate.
Qed.

(** X4: every source of a successful exchange has a non-empty uri and a
    non-empty title; a citation whose uri or title is the empty string is
    dropped like one that has none. *)
Theorem exchange_sources_have_uri_and_title :
  forall (generateContent : list Content -> Outcome)
         (history : list ChatMessage) (message : JsString)
         (image : option Image) txt sources,
    sendMessageToGemini generateContent history message image
    = Normal (Success txt sources) ->
    forall s, In s sources -> uri s <> [] /\ title s <> [].
Proof.
  intros generateContent history message image txt sources H s Hs.
  unfold sendMessageToGemini, tryBlock in H.
  destruct (generateContent (contents history message image)) as [r|[m|]];
    simpl in H; inversion H; subst.
  apply uniqueSources_incl in Hs.
  now apply groundingSourcesOf_nonempty in Hs.
Qed.

Lemma exchange_sources_have_uri_and_title_witness :
  let blank := {| web := Some {| web_uri := Some [];
                                 web_title := Some (lit "B") |} |} in
  let full := {| web := Some {| web_uri := Some (lit "a");
                                web_title := Some (lit "A") |} |} in
  let response := {| responseText := Some (lit "ok");
                     groundingChunks := Some [blank; full] |} in
  let a := {| uri := lit "a"; title := lit "A" |} in
  sendMessageToGemini (fun _ => Fulfilled response) [] (lit "q") None
  = Normal (Success (Some (lit "ok")) [a])
  /\ forall s, In s [a] -> uri s <> [] /\ title s <> [].
Proof.
  intros blank full response a. split; [reflexivity|].
  apply (exchange_sources_have_uri_and_title
           (fun _ => Fulfilled response) [] (lit "q") None
           (txt := Some (lit "ok")) (sources := [a])).
  reflexivity.
Defined.

(* ===================================================================== *)
(** ** The conversation store: what every reachable state satisfies *)
(* ===================================================================== *)

Lemma run_snoc (sys : System) (trace : list Event) (e : Event) :
  run sys (trace ++ [e]) = step (run sys trace) e.
Proof. unfold run. now rewrite fold_left_app. Qed.

Lemma reachable_step (sys : System) (e : Event) :
  reachable sys -> reachable (step sys e).
Proof.
  intros [trace <-]. exists (trace ++ [e]). apply run_snoc.
Qed.

Lemma reachable_invariant (P : System -> Prop) :
  P initial ->
  (forall sys e, reachable sys -> P sys -> P (step sys e)) ->
  forall sys, reachable sys -> P sys.
Proof.
  intros H0 Hs sys [trace <-].
  induction trace as [|e trace IH] using rev_ind; [exact H0|].
  rewrite run_snoc. apply Hs; [now exists trace | exact IH].
Qed.

Lemma handleSendMessage_issued (st st' : Store) (call : ExchangeCall) :
  handleSendMessage st = (st', Some call) ->
  st' = {| messages := messages st
                       ++ [userMessage (trim (input st)) (imageToSend st)];
           input := []; isLoading := true; error := None;
           isCameraOpen := isCameraOpen st; imageToSend := None |}
  /\ call = {| call_history := messages st;
               call_message := trim (input st);
               call_image := imageToSend st |}
  /\ (truthy (trim (input st)) = true \/ isSome (imageToSend st) = true).
Proof.
  unfold handleSendMessage.
  destruct (truthy (trim (input st))) eqn:T;
    destruct (isSome (imageToSend st)) eqn:I; simpl;
    intros H; inversion H; auto.
Qed.

Lemma handleSendMessage_resume_appends (result : ExchangeResult) (st : Store) :
  exists reply,
    handleSendMessage_resume result st
    = {| messages := messages st ++ [reply]; input := input st;
         isLoading := false;
         error := match result_error result with
                  | Some (c :: e) => Some (c :: e)
                  | _ => error st
                  end;
         isCameraOpen := isCameraOpen st; imageToSend := imageToSend st |}
    /\ reply
       = match result_error result with
         | Some (c :: e) => errorBubble (c :: e)
         | _ => {| role := model;
                   parts := [ {| text := result_text result;
                                 inlineData := None |} ];
                   groundingSources := result_sources result |}
         end.
Proof.
  unfold handleSendMessage_resume.
  destruct (result_error result) as [[|c e]|]; eexists; split; reflexivity.
Qed.

(** What one event does to the store and to the exchanges in flight: it
    leaves history, loading flag, banner and exchanges alone (and the input
    too while loading), or it is a submission from an idle store, or it
    settles the exchange in flight. *)
Lemma step_store_effect (sys : System) (e : Event) :
  (messages (store (step sys e)) = messages (store sys)
   /\ isLoading (store (step sys e)) = isLoading (store sys)
   /\ error (store (step sys e)) = error (store sys)
   /\ inFlight (step sys e) = inFlight sys
   /\ (isLoading (store sys) = true ->
       input (store (step sys e)) = input (store sys)))
  \/ (isLoading (store sys) = false
      /\ exists call,
           handleSendMessage (store sys) = (store (step sys e), Some call)
           /\ inFlight (step sys e) = inFlight sys ++ [call])
  \/ (exists call rest result,
        inFlight sys = call :: rest
        /\ inFlight (step sys e) = rest
        /\ (exists outcome,
              sendMessageToGemini (fun _ => outcome) (call_history call)
                                  (call_message call) (call_image call)
              = Normal result)
        /\ store (step sys e) = handleSendMessage_resume result (store sys)).
Proof.
  assert (Q : forall s : System,
             messages (store s) = messages (store s)
             /\ isLoading (store s) = isLoading (store s)
             /\ error (store s) = error (store s)
             /\ inFlight s = inFlight s
             /\ (isLoading (store s) = true ->
                 input (store s) = input (store s))) by (intros; intuition congruence).
  assert (Sub : isLoading (store sys) = false ->
                (messages (store (submit sys)) = messages (store sys)
                 /\ isLoading (store (submit sys)) = isLoading (store sys)
                 /\ error (store (submit sys)) = error (store sys)
                 /\ inFlight (submit sys) = inFlight sys
                 /\ (isLoading (store sys) = true ->
                     input (store (submit sys)) = input (store sys)))
                \/ (isLoading (store sys) = false
                    /\ exists call,
                         handleSendMessage (store sys)
                         = (store (submit sys), Some call)
                         /\ inFlight (submit sys) = inFlight sys ++ [call])).
  { intros L. unfold submit.
    destruct (handleSendMessage (store sys)) as [st' [call|]] eqn:H; simpl.
    - right. split; [exact L|]. now exists call.
    - left. unfold handleSendMessage in H.
      destruct (negb (truthy (trim (input (store sys))))
                && negb (isSome (imageToSend (store sys))));
        inversion H; subst. intuition congruence. }
  destruct e; simpl.
  - left. unfold textareaDisabled.
    destruct (isLoading (store sys)) eqn:L; simpl; rewrite ?L; intuition congruence.
  - unfold textareaDisabled.
    destruct (isLoading (store sys)) eqn:L.
    + left. rewrite L. intuition congruence.
    + destruct (Sub eq_refl) as [H | H]; [left | right; left]; exact H.
  - unfold sendDisabled.
    destruct (isLoading (store sys)) eqn:L.
    + left. rewrite orb_true_r, L. intuition congruence.
    + rewrite orb_false_r.
      destruct (negb (truthy (trim (input (store sys))))
                && negb (isSome (imageToSend (store sys)))).
      * left. rewrite L. intuition congruence.
      * destruct (Sub eq_refl) as [H | H]; [left | right; left]; exact H.
  - left. destruct (isSome (imageToSend (store sys))); simpl; intuition congruence.
  - left. intuition congruence.
  - left. destruct (capture sys) as [c|]; [|intuition congruence].
    destruct (isSome (stream c)); [intuition congruence|].
    destruct (startCamera granted c (device sys)). simpl. intuition congruence.
  - left. destruct (capture sys) as [c|]; [|intuition congruence].
    destruct (isSome (stream c)); [|intuition congruence].
    destruct canvas as [b|]; simpl; [|intuition congruence].
    destruct (stopCamera c (device sys)). simpl. intuition congruence.
  - left. destruct (capture sys) as [c|]; simpl; intuition congruence.
  - destruct (inFlight sys) as [|call rest] eqn:F.
    + left. rewrite F. intuition congruence.
    + right. right.
      destruct (sendMessageToGemini_normal (fun _ => outcome)
                  (call_history call) (call_message call) (call_image call))
        as [result R].
      rewrite R. simpl. exists call, rest, result.
      repeat split. now exists outcome.
Qed.

(** While the store loads, exactly one exchange is in flight. *)
Lemma in_flight_is_loading (sys : System) call rest :
  reachable sys -> inFlight sys = call :: rest ->
  isLoading (store sys) = true /\ rest = [].
Proof.
  intros R F. pose proof (reachable_in_flight_count R) as C.
  rewrite F in C. simpl in C.
  destruct (isLoading (store sys)); [|discriminate].
  split; [reflexivity|]. now destruct rest.
Qed.

Lemma idle_nothing_in_flight (sys : System) :
  reachable sys -> isLoading (store sys) = false -> inFlight sys = [].
Proof.
  intros R L. pose proof (reachable_in_flight_count R) as C.
  rewrite L in C. now destruct (inFlight sys).
Qed.

Lemma turnRoles_submit n : turnRoles n false ++ [user] = turnRoles n true.
Proof. unfold turnRoles. now rewrite app_nil_r. Qed.

Lemma turnRoles_settle n : turnRoles n true ++ [model] = turnRoles (S n) false.
Proof.
  unfold turnRoles. rewrite app_nil_r, <- app_assoc. simpl.
  induction n as [|n IH]; simpl; [reflexivity|]. now rewrite IH.
Qed.

(** X5: the send button is enabled exactly when the store is idle and
    [handleSendMessage] would issue an exchange: the guard of the control
    and the guard of the handler agree. *)
Theorem send_enabled_iff_handler_issues :
  forall st : Store,
    sendDisabled st = false
    <-> (isLoading st = false
         /\ exists st' call, handleSendMessage st = (st', Some call)).
Proof.
  intros st. unfold sendDisabled, handleSendMessage.
  destruct (negb (truthy (trim (input st))) && negb (isSome (imageToSend st)));
    destruct (isLoading st); simpl; split.
  - discriminate.
  - intros [H _]. discriminate.
  - discriminate.
  - intros [_ [st' [call H]]]. discriminate.
  - discriminate.
  - intros [H _]. discriminate.
  - intros _. split; [reflexivity|]. eexists. eexists. reflexivity.
  - reflexivity.
Qed.

(** X6: in every reachable state the history alternates user and model
    messages, starting with a user message; it ends with a model message
    when the store is idle and with the user message awaiting its answer
    when the store is loading. *)
Theorem history_alternates_user_model :
  forall sys : System,
    reachable sys ->
    exists n,
      List.map role (messages (store sys))
      = turnRoles n (isLoading (store sys)).
Proof.
  apply reachable_invariant.
  - now exists 0.
  - intros sys e R [n IH].
    destruct (step_store_effect sys e)
      as [[M [L _]] | [[L [call [H F]]] | [call [rest [result [F [_ [_ St]]]]]]]].
    + exists n. now rewrite M, L.
    + exists n. apply handleSendMessage_issued in H as [H _].
      rewrite H. simpl. rewrite map_app, IH, L. simpl.
      apply turnRoles_submit.
    + destruct (in_flight_is_loading R F) as [L _].
      exists (S n). rewrite St.
      destruct (handleSendMessage_resume_appends result (store sys))
        as [reply [E Hr]].
      rewrite E. simpl. rewrite map_app, IH, L. simpl.
      replace (role reply) with model
        by (rewrite Hr; now destruct (result_error result) as [[|]|]).
      apply turnRoles_settle.
Qed.

Lemma history_alternates_user_model_witness :
  let sys := run initial [TypeText (lit "hi"); ClickSend] in
  reachable sys
  /\ exists n,
       List.map role (messages (store sys))
       = turnRoles n (isLoading (store sys)).
Proof.
  intros sys.
  assert (R : reachable sys).
  { exists [TypeText (lit "hi"); ClickSend]. reflexivity. }
  split; [exact R|]. exact (history_alternates_user_model R).
Defined.

(** X7: in every reachable state, the exchange in flight is the one for
    the last message of the history: the history is the history the
    exchange was given followed by the user message built from the text and
    image it was given; and the pending text is empty. *)
Theorem in_flight_exchange_is_for_last_message :
  forall sys : System,
    reachable sys ->
    forall call,
      inFlight sys = [call] ->
      messages (store sys)
      = call_history call
        ++ [userMessage (call_message call) (call_image call)]
      /\ input (store sys) = [].
Proof.
  apply (reachable_invariant
           (fun sys => forall call,
                inFlight sys = [call] ->
                messages (store sys)
                = call_history call
                  ++ [userMessage (call_message call) (call_image call)]
                /\ input (store sys) = [])).
  - intros call H. discriminate.
  - intros sys e R IH call Hc.
    destruct (step_store_effect sys e)
      as [[M [L [_ [F I]]]] | [[L [c0 [H F]]] | [c0 [rest [result [F [F' _]]]]]]].
    + rewrite F in Hc. destruct (in_flight_is_loading R Hc) as [Ld _].
      rewrite M, (I Ld). now apply IH.
    + rewrite (idle_nothing_in_flight R L) in F. simpl in F.
      rewrite F in Hc. inversion Hc; subst c0.
      apply handleSendMessage_issued in H as [H [Hcall _]].
      rewrite H, Hcall. simpl. now split.
    + destruct (in_flight_is_loading R F) as [_ ->].
      rewrite F' in Hc. discriminate.
Qed.

Lemma in_flight_exchange_is_for_last_message_witness :
  let sys := run initial [TypeText (lit " hi"); ClickSend] in
  let call := {| call_history := []; call_message := lit "hi";
                 call_image := None |} in
  reachable sys
  /\ inFlight sys = [call]
  /\ messages (store sys)
     = call_history call
       ++ [userMessage (call_message call) (call_image call)]
  /\ input (store sys) = [].
Proof.
  intros sys call.
  assert (R : reachable sys).
  { exists [TypeText (lit " hi"); ClickSend]. reflexivity. }
  split; [exact R | split; [reflexivity|]].
  apply (in_flight_exchange_is_for_last_message R). reflexivity.
Defined.

Lemma exchange_result_sources_NoDup generateContent history message image
      result :
  sendMessageToGemini generateContent history message image = Normal result ->
  match result_sources result with
  | Some l => NoDup (List.map uri l)
  | None => True
  end.
Proof.
  unfold sendMessageToGemini, tryBlock.
  destruct (generateContent (contents history message image)) as [r|[m|]];
    simpl; intros H; inversion H; subst; simpl; trivial.
  apply uniqueSources_NoDup.
Qed.

Lemma userMessage_wellShaped (t : JsString) (image : option Image) :
  truthy t = true \/ isSome image = true -> wellShaped (userMessage t image).
Proof.
  unfold wellShaped, userMessage.
  destruct t as [|c t], image as [img|]; simpl; intros [H | H];
    try discriminate; (split; [lia | reflexivity]).
Qed.

(** X8: in every reachable state every stored message is well shaped: a
    user message has one or two parts and no sources, a model message has
    exactly one part, and the sources of a model message have pairwise
    distinct uris. *)
Theorem stored_messages_are_well_shaped :
  forall sys : System,
    reachable sys -> Forall wellShaped (messages (store sys)).
Proof.
  apply reachable_invariant.
  - constructor.
  - intros sys e R IH.
    destruct (step_store_effect sys e)
      as [[M _] | [[L [call [H F]]]
                  | [call [rest [result [F [_ [[outcome O] St]]]]]]]].
    + now rewrite M.
    + apply handleSendMessage_issued in H as [H [_ G]].
      rewrite H. simpl. apply Forall_app. split; [exact IH|].
      constructor; [|constructor]. now apply userMessage_wellShaped.
    + rewrite St.
      destruct (handleSendMessage_resume_appends result (store sys))
        as [reply [E Hr]].
      rewrite E. simpl. apply Forall_app. split; [exact IH|].
      constructor; [|constructor]. rewrite Hr.
      pose proof (exchange_result_sources_NoDup _ _ _ _ O) as N.
      unfold wellShaped.
      destruct (result_error result) as [[|c m]|]; simpl; auto.
Qed.

Lemma stored_messages_are_well_shaped_witness :
  let sys := run initial [TypeText (lit "hi"); ClickSend;
                          Settle (Rejected OtherValue)] in
  reachable sys /\ Forall wellShaped (messages (store sys)).
Proof.
  intros sys.
  assert (R : reachable sys).
  { exists [TypeText (lit "hi"); ClickSend; Settle (Rejected OtherValue)].
    reflexivity. }
  split; [exact R|]. exact (stored_messages_are_well_shaped R).
Defined.

(** X9: in every reachable state, a banner error is never empty, is shown
    only while the store is idle, and is the error of the last message of
    the history, which is the apology built from it. *)
Theorem banner_is_error_of_last_message :
  forall sys : System,
    reachable sys ->
    forall e,
      error (store sys) = Some e ->
      e <> []
      /\ isLoading (store sys) = false
      /\ exists earlier, messages (store sys) = earlier ++ [errorBubble e].
Proof.
  apply (reachable_invariant
           (fun sys => forall e,
                error (store sys) = Some e ->
                e <> []
                /\ isLoading (store sys) = false
                /\ exists earlier,
                     messages (store sys) = earlier ++ [errorBubble e])).
  - intros e H. discriminate.
  - intros sys e R IH b Hb.
    destruct (step_store_effect sys e)
      as [[M [L [E _]]] | [[L [call [H F]]]
                          | [call [rest [result [F [_ [_ St]]]]]]]].
    + rewrite M, L. apply IH. now rewrite <- E.
    + apply handleSendMessage_issued in H as [H _].
      rewrite H in Hb. discriminate.
    + destruct (in_flight_is_loading R F) as [Ld _].
      destruct (handleSendMessage_resume_appends result (store sys))
        as [reply [E Hr]].
      rewrite St, E in *. simpl in *.
      destruct (result_error result) as [[|c m]|].
      * destruct (IH b Hb) as [_ [Hl _]]. congruence.
      * inversion Hb; subst b. subst reply.
        split; [discriminate | split; [reflexivity|]].
        now exists (messages (store sys)).
      * destruct (IH b Hb) as [_ [Hl _]]. congruence.
Qed.

Lemma banner_is_error_of_last_message_witness :
  let sys := run initial [TypeText (lit "hi"); ClickSend;
                          Settle (Rejected (ErrorInstance (lit "offline")))] in
  reachable sys
  /\ error (store sys) = Some (lit "offline")
  /\ lit "offline" <> []
  /\ isLoading (store sys) = false
  /\ exists earlier,
       messages (store sys) = earlier ++ [errorBubble (lit "offline")].
Proof.
  intros sys.
  assert (R : reachable sys).
  { exists [TypeText (lit "hi"); ClickSend;
            Settle (Rejected (ErrorInstance (lit "offline")))].
    reflexivity. }
  split; [exact R | split; [reflexivity|]].
  apply (banner_is_error_of_last_message R). reflexivity.
Defined.

(** A submission from an enabled send button in a reachable state, and the
    settlement that follows it. *)
Lemma submission_then_settlement (sys : System) (outcome : Outcome) :
  reachable sys ->
  sendDisabled (store sys) = false ->
  let sent := userMessage (trim (input (store sys)))
                          (imageToSend (store sys)) in
  let waiting :=
    {| messages := messages (store sys) ++ [sent]; input := [];
       isLoading := true; error := None;
       isCameraOpen := isCameraOpen (store sys); imageToSend := None |} in
  store (step sys ClickSend) = waiting
  /\ inFlight (step sys ClickSend)
     = [ {| call_history := messages (store sys);
            call_message := trim (input (store sys));
            call_image := imageToSend (store sys) |} ]
  /\ exists result,
       sendMessageToGemini (fun _ => outcome) (messages (store sys))
                           (trim (input (store sys)))
                           (imageToSend (store sys))
       = Normal result
       /\ store (step (step sys ClickSend) (Settle outcome))
          = handleSendMessage_resume result waiting
       /\ inFlight (step (step sys ClickSend) (Settle outcome)) = [].
Proof.
  intros R D sent waiting.
  assert (L : isLoading (store sys) = false).
  { unfold sendDisabled in D. apply orb_false_iff in D. tauto. }
  assert (G : negb (truthy (trim (input (store sys))))
              && negb (isSome (imageToSend (store sys))) = false).
  { unfold sendDisabled in D. apply orb_false_iff in D. tauto. }
  assert (H : handleSendMessage (store sys)
              = (waiting,
                 Some {| call_history := messages (store sys);
                         call_message := trim (input (store sys));
                         call_image := imageToSend (store sys) |})).
  { unfold handleSendMessage. rewrite G. reflexivity. }
  assert (S1 : step sys ClickSend
               = {| store := waiting;
                    capture := render waiting (capture sys);
                    device := device sys;
                    inFlight := [ {| call_history := messages (store sys);
                                     call_message := trim (input (store sys));
                                     call_image := imageToSend (store sys) |} ] |}).
  { simpl. rewrite D. unfold submit. rewrite H.
    now rewrite (idle_nothing_in_flight R L). }
  rewrite S1. split; [reflexivity | split; [reflexivity|]].
  destruct (sendMessageToGemini_normal (fun _ => outcome)
              (messages (store sys)) (trim (input (store sys)))
              (imageToSend (store sys))) as [result E].
  exists result. split; [exact E|]. simpl. rewrite E. now split.
Qed.

(** X10: one exchange, end to end. From a reachable state whose send button
    is enabled, a click appends the user message at once and the store
    awaits; whatever the settlement, the history then grows by one model
    message and the store is idle again with nothing in flight, so on a
    failure the user's own message stays in the history. A rejection with
    an [Error] of non-empty message yields the apology and the banner; a
    fulfilment yields the answer with its deduplicated sources and no
    banner. *)
Theorem exchange_round_trip :
  forall (sys : System) (outcome : Outcome),
    reachable sys ->
    sendDisabled (store sys) = false ->
    let sent := userMessage (trim (input (store sys)))
                            (imageToSend (store sys)) in
    let sys1 := step sys ClickSend in
    let sys2 := step sys1 (Settle outcome) in
    awaitingResponse sys1
    /\ messages (store sys1) = messages (store sys) ++ [sent]
    /\ exists reply,
         messages (store sys2) = messages (store sys) ++ [sent; reply]
         /\ role reply = model
         /\ idle sys2
         /\ inFlight sys2 = []
         /\ (forall c m,
               outcome = Rejected (ErrorInstance (c :: m)) ->
               reply = errorBubble (c :: m)
               /\ error (store sys2) = Some (c :: m))
         /\ (forall r,
               outcome = Fulfilled r ->
               reply
               = {| role := model;
                    parts := [ {| text := responseText r;
                                  inlineData := None |} ];
                    groundingSources :=
                      Some (uniqueSources
                              (groundingSourcesOf (groundingChunks r))) |}
               /\ error (store sys2) = None).
Proof.
  intros sys outcome R D sent sys1 sys2. subst sys1 sys2.
  destruct (submission_then_settlement outcome R D)
    as [S1 [_ [result [E [S2 F2]]]]].
  fold sent in S1, S2.
  destruct (handleSendMessage_resume_appends result
              {| messages := messages (store sys) ++ [sent]; input := [];
                 isLoading := true; error := None;
                 isCameraOpen := isCameraOpen (store sys);
                 imageToSend := None |}) as [reply [Hs Hr]].
  rewrite Hs in S2.
  unfold awaitingResponse, idle. rewrite S1, S2, F2. simpl.
  split; [reflexivity | split; [reflexivity|]].
  exists reply.
  split; [now rewrite <- app_assoc|].
  split; [rewrite Hr; now destruct (result_error result) as [[|]|]|].
  split; [reflexivity | split; [reflexivity|]].
  unfold sendMessageToGemini, tryBlock in E. split.
  - intros c m ->. simpl in E. inversion E; subst result.
    simpl in *. now subst reply.
  - intros r ->. simpl in E. inversion E; subst result.
    simpl in *. now subst reply.
Qed.

Lemma exchange_round_trip_witness :
  let sys := run initial [TypeText (lit "hi")] in
  let outcome := Rejected (ErrorInstance (lit "offline")) in
  reachable sys
  /\ sendDisabled (store sys) = false
  /\ messages (store (step (step sys ClickSend) (Settle outcome)))
     = [userMessage (lit "hi") None; errorBubble (lit "offline")]
  /\ awaitingResponse (step sys ClickSend).
Proof.
  intros sys outcome.
  assert (R : reachable sys).
  { exists [TypeText (lit "hi")]. reflexivity. }
  split; [exact R | split; [reflexivity | split; [reflexivity|]]].
  exact (proj1 (exchange_round_trip outcome R eq_refl)).
Defined.

(** X11: a rejection with an [Error] whose message is empty goes
    unreported: the exchange returns [{ error: "" }], which the store takes
    for a success, so it appends a model message whose one part has no text
    and no sources, and shows no banner. *)
Theorem empty_error_message_goes_unreported :
  forall sys : System,
    reachable sys ->
    sendDisabled (store sys) = false ->
    let sys2 := step (step sys ClickSend)
                     (Settle (Rejected (ErrorInstance []))) in
    sendMessageToGemini (fun _ => Rejected (ErrorInstance []))
                        (messages (store sys)) (trim (input (store sys)))
                        (imageToSend (store sys))
    = Normal (Failure [])
    /\ error (store sys2) = None
    /\ idle sys2
    /\ exists earlier,
         messages (store sys2)
         = earlier ++ [ {| role := model; parts := [emptyObject];
                           groundingSources := None |} ].
Proof.
  intros sys R D sys2. subst sys2.
  destruct (submission_then_settlement (Rejected (ErrorInstance [])) R D)
    as [_ [_ [result [E [S2 _]]]]].
  split; [reflexivity|].
  unfold sendMessageToGemini, tryBlock in E. simpl in E.
  inversion E; subst result. unfold idle. rewrite S2. simpl.
  split; [reflexivity | split; [reflexivity|]].
  eexists. reflexivity.
Qed.

Lemma empty_error_message_goes_unreported_witness :
  let sys := run initial [TypeText (lit "hi")] in
  reachable sys
  /\ sendDisabled (store sys) = false
  /\ error (store (step (step sys ClickSend)
                        (Settle (Rejected (ErrorInstance []))))) = None.
Proof.
  intros sys.
  assert (R : reachable sys).
  { exists [TypeText (lit "hi")]. reflexivity. }
  split; [exact R | split; [reflexivity|]].
  exact (proj1 (proj2 (empty_error_message_goes_unreported R eq_refl))).
Defined.

Lemma contents_history_turn (history : list ChatMessage) (message : JsString)
      (image : option Image) (i : nat) (msg : ChatMessage) :
  nth_error history i = Some msg ->
  nth_error (contents history message image) i = Some (convertMessage msg).
Proof.
  intros H. unfold contents.
  rewrite nth_error_app1
    by (rewrite length_map; apply nth_error_Some; congruence).
  now rewrite nth_error_map, H.
Qed.

(** X12: the apology the store appends after a failed exchange is part of
    the conversation from then on: the next request replays it to the
    provider as a model turn with the apology as its text. *)
Theorem error_bubble_is_replayed :
  forall (st : Store) (c : N) (e message : JsString) (image : option Image),
    nth_error
      (contents (messages (handleSendMessage_resume (Failure (c :: e)) st))
                message image)
      (length (messages st))
    = Some {| c_role := model;
              c_parts := [textPart (sorryPrefix ++ c :: e)] |}.
Proof.
  intros st c e message image.
  apply (@contents_history_turn _ message image _ (errorBubble (c :: e))).
  simpl. rewrite nth_error_app2 by lia. now rewrite Nat.sub_diag.
Qed.

Lemma contents_roles (history : list ChatMessage) (message : JsString)
      (image : option Image) :
  List.map c_role (contents history message image)
  = List.map role history ++ [user].
Proof.
  unfold contents. rewrite map_app, map_map. reflexivity.
Qed.

(** X13: in every reachable state, the request of the exchange in flight
    alternates user and model turns, starting and ending with a user
    turn. *)
Theorem request_in_flight_alternates_roles :
  forall sys : System,
    reachable sys ->
    forall call,
      inFlight sys = [call] ->
      exists n,
        List.map c_role (contents (call_history call) (call_message call)
                                  (call_image call))
        = turnRoles n true.
Proof.
  intros sys R.
  assert (Inv : (exists n, List.map role (messages (store sys))
                           = turnRoles n (isLoading (store sys)))
                /\ forall call,
                     inFlight sys = [call] ->
                     exists n, List.map role (call_history call)
                               = turnRoles n false).
  { revert sys R.
    apply (reachable_invariant
             (fun sys =>
                (exists n, List.map role (messages (store sys))
                           = turnRoles n (isLoading (store sys)))
                /\ forall call,
                     inFlight sys = [call] ->
                     exists n, List.map role (call_history call)
                               = turnRoles n false)).
    - split; [now exists 0 | discriminate].
    - intros sys e R [[n IH] IC].
      destruct (step_store_effect sys e)
        as [[M [L [_ [F _]]]]
           | [[L [c0 [H F]]] | [c0 [rest [result [F [F' [_ St]]]]]]]].
      + split; [exists n; now rewrite M, L|]. now rewrite F.
      + apply handleSendMessage_issued in H as [H [Hc _]].
        rewrite (idle_nothing_in_flight R L) in F. simpl in F.
        split.
        * exists n. rewrite H. simpl. rewrite map_app, IH, L.
          apply turnRoles_submit.
        * intros call Hcall. rewrite F in Hcall. inversion Hcall; subst call.
          exists n. rewrite Hc. simpl. now rewrite IH, L.
      + destruct (in_flight_is_loading R F) as [L ->].
        split; [|rewrite F'; discriminate].
        exists (S n). rewrite St.
        destruct (handleSendMessage_resume_appends result (store sys))
          as [reply [E Hr]].
        rewrite E. simpl. rewrite map_app, IH, L. simpl.
        replace (role reply) with model
          by (rewrite Hr; now destruct (result_error result) as [[|]|]).
        apply turnRoles_settle. }
  intros call Hc. destruct Inv as [_ IC]. destruct (IC call Hc) as [n Hn].
  exists n. rewrite contents_roles, Hn. apply turnRoles_submit.
Qed.

Lemma request_in_flight_alternates_roles_witness :
  let sys := run initial [TypeText (lit "a"); ClickSend;
                          Settle (Rejected OtherValue);
                          TypeText (lit "b"); ClickSend] in
  reachable sys
  /\ exists call,
       inFlight sys = [call]
       /\ exists n,
            List.map c_role (contents (call_history call) (call_message call)
                                      (call_image call))
            = turnRoles n true.
Proof.
  intros sys.
  assert (R : reachable sys).
  { exists [TypeText (lit "a"); ClickSend; Settle (Rejected OtherValue);
            TypeText (lit "b"); ClickSend]. reflexivity. }
  split; [exact R|]. eexists. split; [reflexivity|].
  apply (request_in_flight_alternates_roles R). reflexivity.
Defined.

(* ===================================================================== *)
(** ** The capture component and the photo it hands over *)
(* ===================================================================== *)

(** X14: a capture made while the component holds a stream makes the photo
    the pending image, as a JPEG, and closes the capture UI, leaving
    history, text and loading flag alone; if the store is idle the send
    button is then enabled, and a click sends the photo with the trimmed
    text and clears the pending image. *)
Theorem captured_photo_becomes_pending_image :
  forall (sys : System) (c : State) (s : MediaStream) (b64 : JsString),
    capture sys = Some c ->
    stream c = Some s ->
    let photo := {| base64 := b64; imageMimeType := lit "image/jpeg" |} in
    let sys' := step sys (ClickCapture (Some b64)) in
    imageToSend (store sys') = Some photo
    /\ isCameraOpen (store sys') = false
    /\ capture sys' = None
    /\ messages (store sys') = messages (store sys)
    /\ input (store sys') = input (store sys)
    /\ isLoading (store sys') = isLoading (store sys)
    /\ (isLoading (store sys) = false ->
        sendDisabled (store sys') = false
        /\ inFlight (step sys' ClickSend)
           = inFlight sys
             ++ [ {| call_history := messages (store sys);
                     call_message := trim (input (store sys));
                     call_image := Some photo |} ]
        /\ imageToSend (store (step sys' ClickSend)) = None).
Proof.
  intros sys c s b64 C S photo sys'. subst sys'.
  assert (E : step sys (ClickCapture (Some b64))
              = {| store := setIsCameraOpen false
                              (handlePhotoCapture photo (store sys));
                   capture := None;
                   device := stopTracks s (device sys);
                   inFlight := inFlight sys |}).
  { simpl. rewrite C, S. simpl. unfold stopCamera. rewrite S. reflexivity. }
  rewrite E. simpl. repeat (split; [reflexivity|]).
  intros L. unfold sendDisabled, submit, handleSendMessage. simpl.
  rewrite L, !andb_false_r. simpl. repeat split.
Qed.

Lemma captured_photo_becomes_pending_image_witness :
  let sys := run initial [ClickOpenCamera; ClickStartCamera true] in
  capture sys = Some {| stream := Some 0; cameraError := None |}
  /\ imageToSend (store (step sys (ClickCapture (Some (lit "AAAA")))))
     = Some {| base64 := lit "AAAA"; imageMimeType := lit "image/jpeg" |}.
Proof.
  intros sys. split; [reflexivity|].
  exact (proj1 (captured_photo_becomes_pending_image
                  sys (s := 0) (lit "AAAA") eq_refl eq_refl)).
Defined.





(** X16: a refused camera is reported and can be asked for again. After a
    denial the component shows the error and holds no stream, and store
    and device are untouched; a second click, granted, gives it the
    device's next stream, live, and clears the error. *)
Theorem camera_denial_is_retryable :
  forall (sys : System) (c : State),
    capture sys = Some c ->
    stream c = None ->
    let denied := step sys (ClickStartCamera false) in
    let retried := step denied (ClickStartCamera true) in
    capture denied
    = Some {| stream := None; cameraError := Some cameraDenied |}
    /\ device denied = device sys
    /\ store denied = store sys
    /\ capture retried
       = Some {| stream := Some (nextStream (device sys));
                 cameraError := None |}
    /\ liveStreams (device retried)
       = nextStream (device sys) :: liveStreams (device sys).
Proof.
  intros sys c C S denied retried. subst retried denied.
  simpl. rewrite C, S. simpl. repeat split.
Qed.

Lemma camera_denial_is_retryable_witness :
  let sys := step initial ClickOpenCamera in
  capture sys = Some initialState
  /\ capture (step (step sys (ClickStartCamera false)) (ClickStartCamera true))
     = Some {| stream := Some 0; cameraError := None |}.
Proof.
  intros sys. split; [reflexivity|].
  exact (proj1 (proj2 (proj2 (proj2
           (camera_denial_is_retryable sys eq_refl eq_refl))))).
Defined.

(** X17: [stopCamera] stops the stream the component holds and no other,
    leaves the component without a stream, and is idempotent; without a
    stream it does nothing. *)
Theorem stopCamera_releases_own_stream_only :
  forall (c : State) (d : Device),
    let '(c1, d1) := stopCamera c d in
    stream c1 = None
    /\ stopCamera c1 d1 = (c1, d1)
    /\ (forall s, stream c = Some s -> ~ In s (liveStreams d1))
    /\ (forall s', stream c <> Some s' ->
                   (In s' (liveStreams d1) <-> In s' (liveStreams d)))
    /\ (stream c = None -> (c1, d1) = (c, d)).
Proof.
  intros c d. unfold stopCamera.
  destruct (stream c) as [s|] eqn:S; simpl.
  - split; [reflexivity | split; [reflexivity | split; [|split]]].
    + intros s0 E. inversion E; subst s0. intros H.
      apply filter_In in H as [_ H]. now rewrite Nat.eqb_refl in H.
    + intros s' N. rewrite filter_In. split; [tauto|].
      intros H. split; [exact H|].
      apply negb_true_iff, Nat.eqb_neq. congruence.
    + discriminate.
  - rewrite S. repeat split; try tauto; discriminate.
Qed.

(* ===================================================================== *)
(** ** [FormattedText] *)
(* ===================================================================== *)

Lemma startsWith_split (prefix s : JsString) :
  startsWith prefix s = true -> s = prefix ++ skipn (length prefix) s.
Proof.
  revert s. induction prefix as [|a prefix IH]; intros s H; [reflexivity|].
  destruct s as [|b s]; simpl in H; [discriminate|].
  apply andb_true_iff in H as [E H]. apply N.eqb_eq in E. subst b.
  simpl. f_equal. now apply IH.
Qed.

Lemma startsWith_prefix (prefix r : JsString) :
  startsWith prefix (prefix ++ r) = true.
Proof.
  induction prefix as [|a prefix IH]; simpl; [reflexivity|].
  now rewrite N.eqb_refl.
Qed.

Lemma startsWith_app (prefix s t : JsString) :
  startsWith prefix s = true -> startsWith prefix (s ++ t) = true.
Proof.
  intros H. rewrite (startsWith_split _ _ H), <- app_assoc.
  apply startsWith_prefix.
Qed.

Lemma skipn_prefix (prefix r : JsString) :
  skipn (length prefix) (prefix ++ r) = r.
Proof. induction prefix; simpl; auto. Qed.

Lemma nonSpaceRun_le (s : JsString) : nonSpaceRun s <= length s.
Proof.
  induction s as [|c s IH]; simpl; [lia|].
  destruct (isWhiteSpace c); simpl; lia.
Qed.

Lemma nonSpaceRun_firstn (s : JsString) :
  nonSpaceRun (firstn (nonSpaceRun s) s) = nonSpaceRun s
  /\ noWhiteSpace (firstn (nonSpaceRun s) s) = true.
Proof.
  induction s as [|c s [IH1 IH2]]; simpl; [now split|].
  destruct (isWhiteSpace c) eqn:W; simpl; [now split|].
  rewrite W, IH1. simpl. now split.
Qed.

Lemma nonSpaceRun_app (s t : JsString) :
  nonSpaceRun s <= nonSpaceRun (s ++ t).
Proof.
  induction s as [|c s IH]; simpl; [lia|].
  destruct (isWhiteSpace c); lia.
Qed.

(** What a match of one alternative of the url pattern is made of. *)
Lemma matchScheme_Some (scheme s : JsString) (n : nat) :
  matchScheme scheme s = Some n ->
  startsWith scheme s = true
  /\ length scheme < n <= length s
  /\ matchScheme scheme (firstn n s) = Some n
  /\ (noWhiteSpace scheme = true -> noWhiteSpace (firstn n s) = true).
Proof.
  unfold matchScheme. destruct (startsWith scheme s) eqn:P; [|discriminate].
  pose proof (startsWith_split _ _ P) as E.
  remember (skipn (length scheme) s) as body eqn:B.
  destruct (nonSpaceRun body) as [|k] eqn:K; [discriminate|].
  intros H. inversion H; subst n. clear H.
  pose proof (nonSpaceRun_le body) as Hle.
  pose proof (nonSpaceRun_firstn body) as [F1 F2].
  assert (Hf : firstn (length scheme + S k) s
               = scheme ++ firstn (S k) body).
  { rewrite E at 1. now rewrite firstn_app_2. }
  split; [reflexivity|]. split.
  - rewrite E. rewrite length_app. lia.
  - rewrite Hf. rewrite startsWith_prefix, skipn_prefix.
    rewrite <- K, F1, K. split; [reflexivity|].
    intros Hs. unfold noWhiteSpace in *. rewrite forallb_app, Hs.
    rewrite <- K. exact F2.
Qed.

Lemma matchScheme_app (scheme s t : JsString) (n : nat) :
  matchScheme scheme s = Some n ->
  exists m, matchScheme scheme (s ++ t) = Some m.
Proof.
  unfold matchScheme. destruct (startsWith scheme s) eqn:P; [|discriminate].
  rewrite (startsWith_app _ _ t P).
  pose proof (startsWith_split _ _ P) as E.
  remember (skipn (length scheme) s) as body eqn:B.
  assert (Hs : skipn (length scheme) (s ++ t) = body ++ t).
  { rewrite E, <- app_assoc. apply skipn_prefix. }
  rewrite Hs. pose proof (nonSpaceRun_app body t) as Hle.
  destruct (nonSpaceRun body) as [|k]; [discriminate|].
  intros _. destruct (nonSpaceRun (body ++ t)) as [|k']; [lia|].
  eexists. reflexivity.
Qed.

Lemma http_is_not_https (s : JsString) :
  startsWith http s = true -> startsWith https s = false.
Proof.
  intros H. rewrite (startsWith_split _ _ H). reflexivity.
Qed.

Lemma matchUrlAt_Some (s : JsString) (n : nat) :
  matchUrlAt s = Some n ->
  0 < n <= length s
  /\ matchUrlAt (firstn n s) = Some n
  /\ (startsWith https (firstn n s) || startsWith http (firstn n s)) = true
  /\ noWhiteSpace (firstn n s) = true.
Proof.
  unfold matchUrlAt.
  destruct (matchScheme https s) as [m|] eqn:A.
  - intros H. inversion H; subst m.
    destruct (matchScheme_Some _ _ A) as [P [L [M W]]].
    rewrite M. split; [lia | split; [reflexivity | split]].
    + unfold matchScheme in M.
      destruct (startsWith https (firstn n s)); [reflexivity | discriminate].
    + now apply W.
  - intros B. destruct (matchScheme_Some _ _ B) as [P [L [M W]]].
    assert (Q : startsWith http (firstn n s) = true).
    { unfold matchScheme in M.
      destruct (startsWith http (firstn n s)); [reflexivity | discriminate]. }
    split; [lia | split; [|split]].
    + unfold matchScheme at 1. rewrite (http_is_not_https _ Q). exact M.
    + rewrite Q. apply orb_true_r.
    + now apply W.
Qed.

Lemma matchUrlAt_app (s t : JsString) :
  matchUrlAt (s ++ t) = None -> matchUrlAt s = None.
Proof.
  unfold matchUrlAt. intros H.
  destruct (matchScheme https s) as [n|] eqn:A.
  - destruct (matchScheme_app _ _ t A) as [m E]. now rewrite E in H.
  - destruct (matchScheme http s) as [n|] eqn:B; [|reflexivity].
    destruct (matchScheme_app _ _ t B) as [m E].
    destruct (matchScheme https (s ++ t)); [discriminate|]. congruence.
Qed.

Lemma searchUrl_None (s : JsString) :
  searchUrl s = None <-> forall i, matchUrlAt (skipn i s) = None.
Proof.
  induction s as [|c s IH].
  - simpl. split; [|reflexivity]. intros _ i. now destruct i.
  - cbn [searchUrl]. destruct (matchUrlAt (c :: s)) as [n|] eqn:M.
    + split; [discriminate|]. intros H. specialize (H 0). simpl in H.
      congruence.
    + destruct (searchUrl s) as [[i n]|].
      * split; [discriminate|]. intros H.
        assert (Hn : Some (i, n) = None :> option (nat * nat)).
        { apply IH. intros j. apply (H (S j)). }
        discriminate.
      * split; [|reflexivity]. intros _ [|i]; [exact M|].
        simpl. now apply IH.
Qed.

Lemma searchUrl_whole (s : JsString) (n : nat) :
  matchUrlAt s = Some n -> searchUrl s = Some (0, n).
Proof.
  intros H. destruct s as [|c s]; [discriminate|].
  cbn [searchUrl]. now rewrite H.
Qed.

(** [test] fails on a text without a url whatever [lastIndex] it starts
    from, and succeeds from 0 on a text that is a url. *)
Lemma testUrl_gap (lastIndex : nat) (gap : JsString) :
  searchUrl gap = None -> testUrl lastIndex gap = (false, 0).
Proof.
  intros H. unfold testUrl.
  destruct (length gap <? lastIndex); [reflexivity|].
  assert (E : searchUrl (skipn lastIndex gap) = None).
  { apply searchUrl_None. intros i. rewrite skipn_skipn.
    now apply searchUrl_None. }
  now rewrite E.
Qed.

Lemma testUrl_url (url : JsString) :
  matchUrlAt url = Some (length url) -> testUrl 0 url = (true, length url).
Proof.
  intros H. unfold testUrl. simpl. now rewrite (searchUrl_whole _ H).
Qed.

Lemma renderParts_stateless (parts : list JsString) :
  forall (expectUrl : bool) (lastIndex : nat),
    partsShape expectUrl parts ->
    (expectUrl = true -> lastIndex = 0) ->
    renderParts lastIndex parts = List.map renderPart parts.
Proof.
  induction parts as [|part rest IH]; intros b L Sh HL; [reflexivity|].
  destruct Sh as [Hp Hr]. cbn [renderParts List.map].
  unfold renderPart, isUrl. destruct b.
  - rewrite (HL eq_refl), (testUrl_url _ Hp). simpl. f_equal.
    apply (IH false); [exact Hr | discriminate].
  - rewrite !(testUrl_gap _ _ Hp). simpl. f_equal.
    apply (IH true); [exact Hr | reflexivity].
Qed.

Lemma splitLoop_url_shape (fuel : nat) :
  forall gap s : JsString,
    length s <= fuel ->
    (forall i, i < length gap -> matchUrlAt (skipn i gap ++ s) = None) ->
    partsShape false (splitLoop urlMatcher fuel gap s).
Proof.
  assert (G : forall gap s : JsString,
             (forall i, i < length gap ->
                        matchUrlAt (skipn i gap ++ s) = None) ->
             searchUrl gap = None).
  { intros gap s H. apply searchUrl_None. intros i.
    destruct (Nat.lt_ge_cases i (length gap)) as [Hi | Hi].
    - apply (matchUrlAt_app _ s). now apply H.
    - now rewrite skipn_all2. }
  induction fuel as [|fuel IH]; intros gap s Hl Hg.
  - destruct s; [|simpl in Hl; lia]. simpl. rewrite app_nil_r.
    split; [now apply (G gap []) | reflexivity].
  - destruct s as [|c s']; [simpl; split; [now apply (G gap [])|reflexivity]|].
    cbn [splitLoop]. unfold urlMatcher.
    destruct (matchUrlAt (c :: s')) as [n|] eqn:M.
    + destruct (matchUrlAt_Some _ M) as [Hn [Hm _]].
      split; [now apply (G gap (c :: s'))|]. split.
      * rewrite length_firstn, Nat.min_l by lia. exact Hm.
      * apply IH; [|simpl; lia].
        rewrite length_skipn.
        change (length (c :: s')) with (S (length s')) in *. lia.
    + apply IH; [simpl in Hl; lia|].
      intros i Hi. rewrite length_app in Hi. simpl in Hi.
      destruct (Nat.lt_ge_cases i (length gap)) as [Hlt | Hge].
      * rewrite skipn_app.
        replace (i - length gap) with 0 by lia. simpl.
        rewrite <- app_assoc. simpl. now apply Hg.
      * replace i with (length gap) by lia.
        rewrite skipn_app, skipn_all, Nat.sub_diag. simpl. exact M.
Qed.

Lemma split_url_shape (text : JsString) :
  partsShape false (split urlMatcher text).
Proof.
  unfold split. apply splitLoop_url_shape; [lia|]. simpl. lia.
Qed.

Lemma splitLoop_url_concat (fuel : nat) :
  forall gap s : JsString,
    length s <= fuel ->
    List.concat (splitLoop urlMatcher fuel gap s) = gap ++ s.
Proof.
  induction fuel as [|fuel IH]; intros gap s Hl.
  - destruct s; [|simpl in Hl; lia]. simpl. now rewrite !app_nil_r.
  - destruct s as [|c s']; [simpl; now rewrite !app_nil_r|].
    cbn [splitLoop]. unfold urlMatcher.
    destruct (matchUrlAt (c :: s')) as [n|] eqn:M.
    + destruct (matchUrlAt_Some _ M) as [Hn _].
      cbn [List.concat]. rewrite IH.
      * simpl app at 2. now rewrite firstn_skipn.
      * rewrite length_skipn.
        change (length (c :: s')) with (S (length s')) in *. lia.
    + rewrite IH by (simpl in Hl; lia). now rewrite <- app_assoc.
Qed.

Lemma lazyBody_Some (s b : JsString) :
  lazyBody s = Some b ->
  s = b ++ stars ++ skipn (length b + 2) s /\ noLineTerminator b = true.
Proof.
  revert b. induction s as [|c r IH]; intros b; [discriminate|].
  cbn [lazyBody]. destruct (startsWith stars (c :: r)) eqn:P.
  - intros H. inversion H; subst b. split; [|reflexivity].
    exact (startsWith_split _ _ P).
  - destruct (isLineTerminator c) eqn:T; [discriminate|].
    destruct (lazyBody r) as [b'|]; [|discriminate].
    intros H. inversion H; subst b.
    destruct (IH b' eq_refl) as [E N]. split.
    + simpl. f_equal. exact E.
    + unfold noLineTerminator in *. simpl. now rewrite T, N.
Qed.

Lemma boldMatcher_Some (s b : JsString) (n : nat) :
  boldMatcher s = Some (n, b) ->
  n = 4 + length b
  /\ s = stars ++ b ++ stars ++ skipn n s
  /\ noLineTerminator b = true.
Proof.
  unfold boldMatcher. destruct (startsWith stars s) eqn:P; [|discriminate].
  destruct (lazyBody (skipn 2 s)) as [b'|] eqn:L; [|discriminate].
  intros H. inversion H; subst n b'. clear H.
  destruct (lazyBody_Some _ L) as [E N].
  split; [reflexivity | split; [|exact N]].
  pose proof (startsWith_split _ _ P) as Es.
  change (length stars) with 2 in Es.
  rewrite Es at 1. f_equal. rewrite E at 1. do 2 f_equal.
  rewrite skipn_skipn. f_equal. lia.
Qed.

Lemma renderBold_step (i : nat) (l : list JsString) :
  renderBold (S (S i)) l = renderBold i l.
Proof.
  revert i. induction l as [|b l IH]; intros i; [reflexivity|].
  cbn [renderBold]. rewrite IH. f_equal.
  replace (S (S i)) with (i + 1 * 2) by lia.
  now rewrite Nat.Div0.mod_add.
Qed.

Lemma splitLoop_bold_text (fuel : nat) :
  forall gap s : JsString,
    length s <= fuel ->
    List.concat
      (List.map inlineText (renderBold 0 (splitLoop boldMatcher fuel gap s)))
    = gap ++ s.
Proof.
  induction fuel as [|fuel IH]; intros gap s Hl.
  - destruct s; [|simpl in Hl; lia]. simpl. now rewrite !app_nil_r.
  - destruct s as [|c s']; [simpl; now rewrite !app_nil_r|].
    cbn [splitLoop].
    destruct (boldMatcher (c :: s')) as [[n b]|] eqn:M.
    + destruct (boldMatcher_Some _ M) as [Hn [E _]].
      cbn [renderBold]. rewrite renderBold_step.
      change (Nat.eqb (Nat.modulo 0 2) 1) with false.
      change (Nat.eqb (Nat.modulo 1 2) 1) with true.
      cbn [List.map List.concat inlineText]. rewrite IH.
      * rewrite E at 2. now rewrite <- !app_assoc.
      * rewrite length_skipn.
        change (length (c :: s')) with (S (length s')) in *. lia.
    + rewrite IH by (simpl in Hl; lia). now rewrite <- app_assoc.
Qed.

Lemma renderParts_text (parts : list JsString) :
  forall lastIndex,
    renderedText (renderParts lastIndex parts) = List.concat parts.
Proof.
  induction parts as [|part rest IH]; intros L; [reflexivity|].
  cbn [renderParts]. destruct (testUrl L part) as [u L'].
  unfold renderedText in *. cbn [List.map List.concat]. rewrite IH.
  f_equal. destruct u; [reflexivity|].
  cbn [childText]. unfold split. now rewrite splitLoop_bold_text.
Qed.

(** X18: the rendering loses nothing but the bold markers: the labels of
    the anchors and the texts of the spans and strongs, with the markers
    put back around the strongs, concatenate to the text rendered. *)
Theorem rendering_preserves_text :
  forall text : JsString,
    renderedText (FormattedText text) = text
    /\ List.concat (split urlMatcher text) = text.
Proof.
  intros text.
  assert (C : List.concat (split urlMatcher text) = text).
  { unfold split. now rewrite splitLoop_url_concat. }
  split; [|exact C].
  unfold FormattedText. now rewrite renderParts_text.
Qed.

(** X19: the [lastIndex] that [test] leaves on the global pattern never
    changes what is rendered: the parts of the split alternate between
    texts without a url and urls, and each part is rendered as a pattern
    starting afresh would render it, a url as an anchor and a text as
    spans and strongs. *)
Theorem rendering_is_independent_of_lastIndex :
  forall text : JsString,
    FormattedText text = List.map renderPart (split urlMatcher text)
    /\ partsShape false (split urlMatcher text).
Proof.
  intros text. pose proof (split_url_shape text) as Sh.
  split; [|exact Sh].
  unfold FormattedText.
  apply (@renderParts_stateless _ false 0 Sh). discriminate.
Qed.

Lemma partsShape_In (parts : list JsString) :
  forall (b : bool) (part : JsString),
    partsShape b parts -> In part parts ->
    searchUrl part = None \/ matchUrlAt part = Some (length part).
Proof.
  induction parts as [|p rest IH]; intros b part Sh H; [contradiction|].
  destruct Sh as [Hp Hr]. destruct H as [-> | H].
  - destruct b; [now right | now left].
  - now apply (IH (negb b)).
Qed.

(** X20: every anchor rendered links to what it shows, and that is an
    http or https url without white space: no other scheme is ever made a
    link. *)
Theorem anchors_are_http_urls :
  forall (text href label : JsString),
    In (Anchor href label) (FormattedText text) ->
    href = label
    /\ (startsWith https href || startsWith http href) = true
    /\ noWhiteSpace href = true.
Proof.
  intros text href label H.
  pose proof (split_url_shape text) as Sh.
  unfold FormattedText in H.
  rewrite (@renderParts_stateless _ false 0 Sh) in H by discriminate.
  apply in_map_iff in H as [part [E Hin]].
  unfold renderPart, isUrl in E.
  destruct (@partsShape_In _ _ _ Sh Hin) as [G | U].
  - rewrite (@testUrl_gap 0 _ G) in E. discriminate.
  - rewrite (@testUrl_url _ U) in E. simpl in E. inversion E; subst.
    destruct (@matchUrlAt_Some _ _ U) as [_ [_ [P W]]].
    rewrite firstn_all in P, W. now repeat split.
Qed.

Lemma anchors_are_http_urls_witness :
  let text := lit "see https://a.b/c now" in
  In (Anchor (lit "https://a.b/c") (lit "https://a.b/c")) (FormattedText text)
  /\ (startsWith https (lit "https://a.b/c")
      || startsWith http (lit "https://a.b/c")) = true
  /\ noWhiteSpace (lit "https://a.b/c") = true.
Proof.
  intros text.
  assert (H : In (Anchor (lit "https://a.b/c") (lit "https://a.b/c"))
                 (FormattedText text)).
  { right. left. reflexivity. }
  split; [exact H|].
  exact (proj2 (anchors_are_http_urls text _ _ H)).
Defined.

Lemma splitLoop_no_match (matchAt : JsString -> option (nat * JsString))
      (fuel : nat) :
  forall gap s : JsString,
    (forall i, matchAt (skipn i s) = None) ->
    splitLoop matchAt fuel gap s = [gap ++ s].
Proof.
  induction fuel as [|fuel IH]; intros gap s H; [reflexivity|].
  destruct s as [|c s']; [simpl; now rewrite app_nil_r|].
  cbn [splitLoop]. rewrite (H 0 : matchAt (c :: s') = None).
  rewrite IH; [now rewrite <- app_assoc|].
  intros i. apply (H (S i)).
Qed.

Lemma startsWith_first (a : N) (prefix s : JsString) :
  startsWith (a :: prefix) s = true -> In a s.
Proof.
  destruct s as [|b s]; simpl; [discriminate|].
  intros H. apply andb_true_iff in H as [E _]. apply N.eqb_eq in E.
  now left.
Qed.

Lemma In_skipn (a : N) (i : nat) (s : JsString) :
  In a (skipn i s) -> In a s.
Proof.
  revert s. induction i as [|i IH]; intros s; [trivial|].
  destruct s as [|c s]; simpl; [trivial|]. intros H. right. now apply IH.
Qed.

(** X21: a text with no [h] and no [*] in it is rendered verbatim, as one
    span. *)
Theorem plain_text_is_one_span :
  forall text : JsString,
    ~ In 104%N text ->
    ~ In 42%N text ->
    FormattedText text = [Inlines [Span text]].
Proof.
  intros text Hh Hs.
  assert (U : forall i, matchUrlAt (skipn i text) = None).
  { intros i. unfold matchUrlAt, matchScheme.
    destruct (startsWith https (skipn i text)) eqn:A.
    { exfalso. apply Hh, (In_skipn _ i). exact (startsWith_first _ _ _ A). }
    destruct (startsWith http (skipn i text)) eqn:B; [|reflexivity].
    exfalso. apply Hh, (In_skipn _ i). exact (startsWith_first _ _ _ B). }
  assert (B : forall i, boldMatcher (skipn i text) = None).
  { intros i. unfold boldMatcher.
    destruct (startsWith stars (skipn i text)) eqn:A; [|reflexivity].
    exfalso. apply Hs, (In_skipn _ i). exact (startsWith_first _ _ _ A). }
  assert (Um : forall i, urlMatcher (skipn i text) = None).
  { intros i. unfold urlMatcher. now rewrite U. }
  unfold FormattedText, split. rewrite (splitLoop_no_match _ _ [] _ Um).
  cbn [renderParts app].
  rewrite (testUrl_gap 0 text) by (now apply searchUrl_None).
  unfold split. now rewrite (splitLoop_no_match _ _ [] _ B).
Qed.

Lemma plain_text_is_one_span_witness :
  ~ In 104%N (lit "so long")
  /\ ~ In 42%N (lit "so long")
  /\ FormattedText (lit "so long") = [Inlines [Span (lit "so long")]].
Proof.
  assert (Hh : ~ In 104%N (lit "so long")).
  { intros H. repeat (destruct H as [H | H]; [discriminate|]). exact H. }
  assert (Hs : ~ In 42%N (lit "so long")).
  { intros H. repeat (destruct H as [H | H]; [discriminate|]). exact H. }
  split; [exact Hh | split; [exact Hs|]].
  exact (@plain_text_is_one_span (lit "so long") Hh Hs).
Defined.

Lemma splitLoop_bold_strong (fuel : nat) :
  forall (gap s t : JsString),
    length s <= fuel ->
    In (Strong t) (renderBold 0 (splitLoop boldMatcher fuel gap s)) ->
    noLineTerminator t = true
    /\ exists before after, s = before ++ stars ++ t ++ stars ++ after.
Proof.
  induction fuel as [|fuel IH]; intros gap s t Hl H.
  - simpl in H. destruct H as [H | H]; [discriminate | contradiction].
  - destruct s as [|c s'].
    { simpl in H. destruct H as [H | H]; [discriminate | contradiction]. }
    cbn [splitLoop] in H.
    destruct (boldMatcher (c :: s')) as [[n b]|] eqn:M.
    + destruct (boldMatcher_Some _ M) as [Hn [E N]].
      cbn [renderBold] in H. rewrite renderBold_step in H.
      change (Nat.eqb (Nat.modulo 0 2) 1) with false in H.
      change (Nat.eqb (Nat.modulo 1 2) 1) with true in H.
      destruct H as [H | [H | H]]; [discriminate | |].
      * inversion H; subst t. split; [exact N|].
        exists [], (skipn n (c :: s')). exact E.
      * apply IH in H.
        -- destruct H as [Nt [before [after Ea]]]. split; [exact Nt|].
           exists (stars ++ b ++ stars ++ before), after.
           rewrite E at 1. rewrite Ea. now rewrite <- !app_assoc.
        -- rewrite length_skipn.
           change (length (c :: s')) with (S (length s')) in *. lia.
    + apply IH in H; [|simpl in Hl; lia].
      destruct H as [Nt [before [after Ea]]]. split; [exact Nt|].
      exists (c :: before), after. simpl. now rewrite Ea.
Qed.

(** X22: a text between two bold markers is rendered strong only if it was
    so marked in the part and holds no line terminator: the markers do not
    pair up across lines. Put back with their markers, the strongs and
    spans of a part concatenate to the part. *)
Theorem strong_runs_are_marked_and_on_one_line :
  forall part : JsString,
    (forall t,
        In (Strong t) (renderBold 0 (split boldMatcher part)) ->
        noLineTerminator t = true
        /\ exists before after,
             part = before ++ stars ++ t ++ stars ++ after)
    /\ List.concat
         (List.map inlineText (renderBold 0 (split boldMatcher part)))
       = part.
Proof.
  intros part. split.
  - intros t H. apply (@splitLoop_bold_strong (length part) [] part t);
      [lia | exact H].
  - unfold split. now rewrite splitLoop_bold_text.
Qed.

Lemma strong_runs_are_marked_and_on_one_line_witness :
  let part := lit "a **b** c" in
  In (Strong (lit "b")) (renderBold 0 (split boldMatcher part))
  /\ noLineTerminator (lit "b") = true
  /\ exists before after,
       part = before ++ stars ++ lit "b" ++ stars ++ after.
Proof.
  intros part.
  assert (H : In (Strong (lit "b")) (renderBold 0 (split boldMatcher part))).
  { right. left. reflexivity. }
  split; [exact H|].
  exact (proj1 (strong_runs_are_marked_and_on_one_line part) _ H).
Defined.
